(** * Section-aware line segmentation engine ([backend/parser_utils.py])

    A shallow embedding of [split_and_merge] and of the helpers it uses,
    followed by the properties of the engine.

    Python strings are sequences of Unicode code points; a character is
    modelled by its code point.  The engine depends on the interpreter's
    Unicode tables (white space, case, alphanumerics) only through a handful
    of predicates: on ASCII they are written out, above ASCII they are taken
    from a [UnicodeDB], over which every general theorem is quantified. *)

From Stdlib Require Import String Ascii QArith NArith Arith Bool List Lia.
Import ListNotations.
Close Scope Q_scope.
Open Scope nat_scope.

Set Implicit Arguments.

(** ** Python values *)

Module Py.

Definition char := N.
Definition str := list char.

(** A string literal of the source, as its code points. *)
Definition py (s : string) : str := map N_of_ascii (list_ascii_of_string s).

(** What a Python call can raise here, plus the exhaustion of a loop bound
    (a [while] loop is run with fuel). *)
Inductive exn := IndexError | ZeroDivisionError | LoopBound.

Inductive result (A : Type) :=
| Ok (a : A)
| Raise (e : exn).
Arguments Ok {A} a.
Arguments Raise {A} e.

Definition bind {A B} (m : result A) (f : A -> result B) : result B :=
  match m with
  | Ok a => f a
  | Raise e => Raise e
  end.

(** [a and b] on fallible tests: [b] is not evaluated when [a] is false. *)
Definition and_then (a b : result bool) : result bool :=
  bind a (fun x => if x then b else Ok false).

(** The tables of the running interpreter above ASCII. *)
Class UnicodeDB := {
  uni_isspace : char -> bool;
  uni_isupper : char -> bool;
  uni_islower : char -> bool;
  uni_istitle : char -> bool;
  uni_isalnum : char -> bool;
  uni_isdecimal : char -> bool;
  (* [str.lower()] of a string that is not pure ASCII *)
  uni_lower : str -> str;
  (* [re.I]: a non-ASCII subject character against a lower-case letter *)
  uni_ignorecase : char -> char -> bool
}.

(** A database in which no character above ASCII has any property. *)
Definition ascii_only : UnicodeDB := {|
  uni_isspace := fun _ => false;
  uni_isupper := fun _ => false;
  uni_islower := fun _ => false;
  uni_istitle := fun _ => false;
  uni_isalnum := fun _ => false;
  uni_isdecimal := fun _ => false;
  uni_lower := fun s => s;
  uni_ignorecase := fun _ _ => false
|}.

Definition between (lo hi c : char) : bool := (N.leb lo c && N.leb c hi)%bool.

Definition is_ascii (c : char) : bool := N.ltb c 128%N.

Definition ascii_isspace (c : char) : bool :=
  between 9%N 13%N c || between 28%N 32%N c.

Definition ascii_upper (c : char) : bool := between 65%N 90%N c.
Definition ascii_lower (c : char) : bool := between 97%N 122%N c.
Definition ascii_digit (c : char) : bool := between 48%N 57%N c.

Definition ascii_tolower (c : char) : char :=
  if ascii_upper c then (c + 32)%N else c.

Section Strings.
Context {U : UnicodeDB}.

Definition isspace (c : char) : bool :=
  if is_ascii c then ascii_isspace c else uni_isspace c.

Definition ch_isupper (c : char) : bool :=
  if is_ascii c then ascii_upper c else uni_isupper c.

Definition ch_islower (c : char) : bool :=
  if is_ascii c then ascii_lower c else uni_islower c.

Definition ch_istitle (c : char) : bool :=
  if is_ascii c then false else uni_istitle c.

(** [\w] of a str pattern: alphanumeric or underscore. *)
Definition is_word (c : char) : bool :=
  if is_ascii c
  then ascii_upper c || ascii_lower c || ascii_digit c || N.eqb c 95%N
  else uni_isalnum c.

(** [\d] of a str pattern. *)
Definition is_digit (c : char) : bool :=
  if is_ascii c then ascii_digit c else uni_isdecimal c.

Fixpoint cased_scan (bad good : char -> bool) (cased : bool) (s : str) : bool :=
  match s with
  | [] => cased
  | c :: s' =>
      if bad c then false else cased_scan bad good (cased || good c) s'
  end.

(** [s.isupper()]: no lower- or title-case character and one cased one. *)
Definition isupper (s : str) : bool :=
  match s with
  | [c] => ch_isupper c
  | _ => cased_scan (fun c => ch_islower c || ch_istitle c) ch_isupper false s
  end.

(** [s.islower()]. *)
Definition islower (s : str) : bool :=
  match s with
  | [c] => ch_islower c
  | _ => cased_scan (fun c => ch_isupper c || ch_istitle c) ch_islower false s
  end.

(** [s.lower()]. *)
Definition lower (s : str) : str :=
  if forallb is_ascii s then map ascii_tolower s else uni_lower s.

Fixpoint drop_while (f : char -> bool) (s : str) : str :=
  match s with
  | [] => []
  | c :: s' => if f c then drop_while f s' else s
  end.

Definition lstrip_by (f : char -> bool) (s : str) : str := drop_while f s.
Definition rstrip_by (f : char -> bool) (s : str) : str :=
  rev (drop_while f (rev s)).

(** [s.rstrip()], [s.strip()] and [s.strip(chars)]. *)
Definition rstrip (s : str) : str := rstrip_by isspace s.
Definition strip (s : str) : str := lstrip_by isspace (rstrip_by isspace s).

Definition mem_char (cs : str) (c : char) : bool := existsb (N.eqb c) cs.

Definition strip_chars (cs : str) (s : str) : str :=
  lstrip_by (mem_char cs) (rstrip_by (mem_char cs) s).

(** [re.split(r'\s+', s)]: the pieces between maximal runs of white space,
    an empty piece included where [s] starts or ends with one. *)
Fixpoint re_split_ws_from (in_gap : bool) (s : str) : list str :=
  match s with
  | [] => [[]]
  | c :: s' =>
      if isspace c then
        if in_gap then re_split_ws_from true s'
        else [] :: re_split_ws_from true s'
      else
        match re_split_ws_from false s' with
        | w :: ws => (c :: w) :: ws
        | [] => [[c]]
        end
  end.

Definition re_split_ws (s : str) : list str := re_split_ws_from false s.

End Strings.

Fixpoint str_eqb (a b : str) : bool :=
  match a, b with
  | [], [] => true
  | x :: a', y :: b' => N.eqb x y && str_eqb a' b'
  | _, _ => false
  end.

Fixpoint startswith (s p : str) : bool :=
  match p, s with
  | [], _ => true
  | x :: p', y :: s' => N.eqb x y && startswith s' p'
  | _ :: _, [] => false
  end.

Definition endswith (s suf : str) : bool := startswith (rev s) (rev suf).

(** [s.endswith((a, b, ...))]. *)
Definition endswith_any (s : str) (sufs : list str) : bool :=
  existsb (endswith s) sufs.

(** A non-empty string is true. *)
Definition truthy (s : str) : bool :=
  match s with [] => false | _ => true end.

(** A non-empty list is true. *)
Definition truthy_list {A} (l : list A) : bool :=
  match l with [] => false | _ => true end.

(** [sep.join(l)]. *)
Fixpoint join (sep : str) (l : list str) : str :=
  match l with
  | [] => []
  | [x] => x
  | x :: l' => x ++ sep ++ join sep l'
  end.

(** [s.rfind(sub)]: the highest index at which [sub] starts, [None] for -1. *)
Fixpoint rfind_from (i : nat) (s sub : str) : option nat :=
  match s with
  | [] => if startswith [] sub then Some i else None
  | _ :: s' =>
      match rfind_from (S i) s' sub with
      | Some j => Some j
      | None => if startswith s sub then Some i else None
      end
  end.

Definition rfind (s sub : str) : option nat := rfind_from 0 s sub.

(** [s[:k]] for the index [rfind] returned: [s[:-1]] when it was -1. *)
Definition slice_to (s : str) (k : option nat) : str :=
  match k with
  | Some n => firstn n s
  | None => removelast s
  end.

(** [l[i]] for [0 <= i]. *)
Definition index {A} (l : list A) (i : nat) : result A :=
  match nth_error l i with
  | Some x => Ok x
  | None => Raise IndexError
  end.

(** [l[-1]]. *)
Definition index_last {A} (l : list A) : result A :=
  match rev l with
  | x :: _ => Ok x
  | [] => Raise IndexError
  end.

(** [l[-1] = v]. *)
Definition set_last {A} (l : list A) (v : A) : result (list A) :=
  match rev l with
  | _ :: r => Ok (rev r ++ [v])
  | [] => Raise IndexError
  end.

(** [l[i] = v] for [0 <= i]. *)
Fixpoint set_index {A} (l : list A) (i : nat) (v : A) : result (list A) :=
  match l, i with
  | [], _ => Raise IndexError
  | _ :: l', 0 => Ok (v :: l')
  | x :: l', S i' => bind (set_index l' i' v) (fun r => Ok (x :: r))
  end.

End Py.

Import Py.

Notation "x <- m ;; k" := (bind m (fun x => k))
  (at level 61, m at next level, right associativity).
Notation "' p <- m ;; k" := (bind m (fun x => let p := x in k))
  (at level 61, p pattern, m at next level, right associativity).

(** The [for x in l: ...] loop over a state, stopping at the first raise. *)
Fixpoint for_each {S A} (body : S -> A -> result S) (l : list A) (s : S)
  : result S :=
  match l with
  | [] => Ok s
  | x :: l' => s' <- body s x ;; for_each body l' s'
  end.

(** ** Regular expressions of [re], by backtracking *)

Module Re.

Inductive regex :=
| Eps
| Cls (f : char -> bool)
| Seq (a b : regex)
| Alt (a b : regex)
| Star (greedy : bool) (a : regex)
| Bol
| Eol
| WordB.

Definition Plus (a : regex) : regex := Seq a (Star true a).
Definition Opt (a : regex) : regex := Alt a Eps.
Definition Chr (c : char) : regex := Cls (N.eqb c).
Definition Range (lo hi : char) : regex := Cls (between lo hi).
Definition OneOf (cs : str) : regex := Cls (mem_char cs).
(* [.] matches anything but a line feed *)
Definition Dot : regex := Cls (fun c => negb (N.eqb c 10%N)).
Definition Lit (s : str) : regex := fold_right (fun c r => Seq (Chr c) r) Eps s.
Definition Alts (l : list regex) : regex :=
  match l with
  | [] => Cls (fun _ => false)
  | r :: l' => fold_left Alt l' r
  end.
Definition Seqs (l : list regex) : regex := fold_right Seq Eps l.

(** [$] without MULTILINE: at the end, or before a final line feed. *)
Definition at_end (s : str) : bool :=
  match s with
  | [] => true
  | [c] => N.eqb c 10%N
  | _ => false
  end.

Definition at_start (p : option char) : bool :=
  match p with None => true | Some _ => false end.

(** No [^], [$] or [\b] inside. *)
Fixpoint anchor_free (r : regex) : bool :=
  match r with
  | Eps | Cls _ => true
  | Seq a b | Alt a b => anchor_free a && anchor_free b
  | Star _ a => anchor_free a
  | Bol | Eol | WordB => false
  end.

Section Engine.
Context {U : UnicodeDB}.

Definition word_side (c : option char) : bool :=
  match c with Some x => is_word x | None => false end.

(** [\b]: exactly one side is a word character. *)
Definition boundary (p : option char) (s : str) : bool :=
  xorb (word_side p) (word_side (hd_error s)).

(** A pattern character under [re.I]: a cased one is compared lower-cased,
    any other is a plain literal. *)
Definition ignorecase (pc : char) : char -> bool :=
  let lo := ascii_tolower pc in
  if ascii_lower lo
  then fun c => if is_ascii c then N.eqb (ascii_tolower c) lo
                else uni_ignorecase c lo
  else N.eqb pc.

Definition LitI (s : str) : regex :=
  fold_right (fun c r => Seq (Cls (ignorecase c)) r) Eps s.

Definition Space : regex := Cls isspace.
Definition Digit : regex := Cls is_digit.

(** The loop of a star: [body] once more and the loop on what is left, or
    [k] here; a greedy star tries the longer match first.  A turn that
    consumes nothing ends the loop, and [n] bounds the turns. *)
Fixpoint star_loop {A} (greedy : bool)
  (body : option char -> str -> (option char -> str -> option A) -> option A)
  (k : option char -> str -> option A)
  (n : nat) (p : option char) (s : str) {struct n} : option A :=
  match n with
  | 0 => k p s
  | S n' =>
      let again :=
        body p s (fun p' s' =>
          if length s' <? length s then star_loop greedy body k n' p' s'
          else None) in
      if greedy then
        match again with Some x => Some x | None => k p s end
      else
        match k p s with Some x => Some x | None => again end
  end.

(** [exec r p s k]: match [r] at a position with [p] before and [s] after
    it, then [k] on what is left; the first success in the order in which
    [re] backtracks (left alternative first, a greedy star long first). *)
Fixpoint exec {A} (r : regex) (p : option char) (s : str)
  (k : option char -> str -> option A) {struct r} : option A :=
  match r with
  | Eps => k p s
  | Cls f =>
      match s with
      | c :: s' => if f c then k (Some c) s' else None
      | [] => None
      end
  | Seq a b => exec a p s (fun p' s' => exec b p' s' k)
  | Alt a b =>
      match exec a p s k with
      | Some x => Some x
      | None => exec b p s k
      end
  | Star greedy a => star_loop greedy (exec a) k (length s) p s
  | Bol => if at_start p then k p s else None
  | Eol => if at_end s then k p s else None
  | WordB => if boundary p s then k p s else None
  end.

(** What [exec] searches: [matches r p s p' s'] when [r] matches from the
    position ([p], [s]) up to the position ([p'], [s']). *)
Inductive matches : regex -> option char -> str -> option char -> str -> Prop :=
| m_eps p s : matches Eps p s p s
| m_cls f c p s : f c = true -> matches (Cls f) p (c :: s) (Some c) s
| m_seq a b p s p1 s1 p2 s2 :
    matches a p s p1 s1 -> matches b p1 s1 p2 s2 ->
    matches (Seq a b) p s p2 s2
| m_alt_l a b p s p' s' : matches a p s p' s' -> matches (Alt a b) p s p' s'
| m_alt_r a b p s p' s' : matches b p s p' s' -> matches (Alt a b) p s p' s'
| m_star_stop g a p s : matches (Star g a) p s p s
| m_star_step g a p s p1 s1 p2 s2 :
    matches a p s p1 s1 -> length s1 < length s ->
    matches (Star g a) p1 s1 p2 s2 ->
    matches (Star g a) p s p2 s2
| m_bol s : matches Bol None s None s
| m_eol p s : at_end s = true -> matches Eol p s p s
| m_wordb p s : boundary p s = true -> matches WordB p s p s.

(** The text matched at this position, if any. *)
Definition match_here (r : regex) (p : option char) (s : str) : option str :=
  exec r p s (fun _ rest => Some (firstn (length s - length rest) s)).

(** [r.match(s)] and [r.search(s)], as [group(0)]. *)
Definition re_match (r : regex) (s : str) : option str := match_here r None s.

Fixpoint search_from (r : regex) (p : option char) (s : str) : option str :=
  match match_here r p s with
  | Some m => Some m
  | None =>
      match s with
      | [] => None
      | c :: s' => search_from r (Some c) s'
      end
  end.

Definition re_search (r : regex) (s : str) : option str := search_from r None s.

Definition found (m : option str) : bool :=
  match m with Some _ => true | None => false end.

End Engine.
End Re.

Import Re.

(** ** The parser: patterns *)

Definition ch (a : ascii) : char := N_of_ascii a.

Definition SMALL_WORDS : list str :=
  map py ["and"; "for"; "of"; "to"; "in"; "with"; "on"; "the"; "a"; "an"; "&"]%string.

(** The tuple [('.', '!', '?', ':', ';', ',')]. *)
Definition SENTENCE_END : list str :=
  map py ["."; "!"; "?"; ":"; ";"; ","]%string.

Inductive section := SecExp | SecProj.

Section Parser.
Context {U : UnicodeDB}.

(* ^[•\-\–\—\*]\s+ *)
Definition BULLET_RE : regex :=
  Seqs [Bol; OneOf [8226; 45; 8211; 8212; 42]%N; Plus Space].

(* ^\(?\d+[\.\)\]]\s+ *)
Definition NUM_BULLET_RE : regex :=
  Seqs [Bol; Opt (Chr (ch "(")); Plus Digit; OneOf (py ".)]"); Plus Space].

(** [^\s*(a|b|...)\b.*$] with [re.I]. *)
Definition header_re (alts : list regex) : regex :=
  Seqs [Bol; Star true Space; Alts alts; WordB; Star true Dot; Eol].

(** [word] and [words?] under [re.I]. *)
Definition wordI (w : string) : regex := LitI (py w).
Definition pluralI (w : string) : regex :=
  Seq (LitI (py w)) (Opt (LitI (py "s"))).

Definition EXPERIENCE_HEADERS : regex :=
  header_re [wordI "experience"; wordI "work experience";
             wordI "professional experience"].

Definition PROJECTS_HEADERS : regex :=
  header_re [wordI "projects"; wordI "project experience";
             wordI "personal projects"].

Definition OTHER_HEADERS : regex :=
  header_re [wordI "education"; wordI "skills"; pluralI "certification";
             pluralI "award"; pluralI "publication"; wordI "summary";
             wordI "contact"; pluralI "achievement"].

(** [abc(?:def)?]. *)
Definition abbrev (short rest : string) : regex :=
  Seq (Lit (py short)) (Opt (Lit (py rest))).

Definition MONTH_RE : regex :=
  Alts [abbrev "Jan" "uary"; abbrev "Feb" "ruary"; abbrev "Mar" "ch";
        abbrev "Apr" "il"; Lit (py "May"); abbrev "Jun" "e"; abbrev "Jul" "y";
        abbrev "Aug" "ust";
        Seq (Lit (py "Sep")) (Opt (Seq (Lit (py "t")) (Opt (Lit (py "ember")))));
        abbrev "Oct" "ober"; abbrev "Nov" "ember"; abbrev "Dec" "ember"].

(* \b{MONTH_RE}\b.*?\b(19|20)\d{2}\b *)
Definition DATE_RE : regex :=
  Seqs [WordB; MONTH_RE; WordB; Star false Dot; WordB;
        Alt (Lit (py "19")) (Lit (py "20")); Digit; Digit; WordB].

(* \s-\s *)
Definition RANGE_RE : regex := Seqs [Space; Chr (ch "-"); Space].

Definition ROLE_RE : regex :=
  Seqs [WordB;
        Alts [wordI "Engineer"; wordI "Developer"; wordI "Scientist";
              wordI "Analyst"; wordI "Manager"; wordI "Consultant";
              wordI "Architect"; wordI "Administrator"];
        WordB].

Definition Upper : regex := Range (ch "A") (ch "Z").
Definition Lower : regex := Range (ch "a") (ch "z").

(* ,\s*[A-Z]{2}(?:\b|,|\s) *)
Definition LOCATION_RE : regex :=
  Seqs [Chr (ch ","); Star true Space; Upper; Upper;
        Alts [WordB; Chr (ch ","); Space]].

(* ^[A-Z][A-Z &\-\.,/()]+$ *)
Definition ALLCAPS_RE : regex :=
  Seqs [Bol; Upper;
        Plus (Cls (fun c => between (ch "A") (ch "Z") c
                            || mem_char (py " &-.,/()") c));
        Eol].

(* [A-Z][\w&\-/]+$ *)
Definition TITLE_TOKEN_RE : regex :=
  Seqs [Upper; Plus (Cls (fun c => is_word c || mem_char (py "&-/") c)); Eol].

(** [[A-Z]{2,}|[A-Z][a-z]+]. *)
Definition FRAG_WORD : regex :=
  Alt (Seqs [Upper; Upper; Star true Upper]) (Seq Upper (Plus Lower)).

(* (?:[A-Z]{2,}|[A-Z][a-z]+)(?:\s+(?:[A-Z]{2,}|[A-Z][a-z]+))?$ *)
Definition FRAG_RE : regex :=
  Seqs [FRAG_WORD; Opt (Seq (Plus Space) FRAG_WORD); Eol].

(** ** The parser: line classifier *)

Definition _is_bullet (text : str) : bool :=
  found (re_match BULLET_RE text) || found (re_match NUM_BULLET_RE text).

Definition _looks_like_job_header (text : str) : bool :=
  found (re_search DATE_RE text) || found (re_search RANGE_RE text)
  || found (re_search ROLE_RE text) || found (re_search LOCATION_RE text)
  || found (re_match ALLCAPS_RE text).

(** [a / b] on ints; the quotients compared below have a denominator of at
    most 10, where the comparison of the float quotient with the float 0.6
    and that of the exact quotient with 6/10 agree. *)
Definition py_truediv (a b : nat) : result Q :=
  match b with
  | 0 => Raise ZeroDivisionError
  | S _ => Ok (Qmake (Z.of_nat a) (Pos.of_nat b))
  end.

(** [[w for w in re.split(r'\s+', t) if w]]. *)
Definition split_words (t : str) : list str := filter truthy (re_split_ws t).

(** The third test of the loop body: upper case, capitalised, or the
    capitalised-token pattern. *)
Definition titleish_word (w : str) : bool :=
  isupper w
  || (isupper (firstn 1 w) && islower (skipn 1 w))
  || found (re_match TITLE_TOKEN_RE w).

(** One turn of [for w in words], on the counters (titleish, sig). *)
Definition count_word (acc : nat * nat) (w : str) : nat * nat :=
  let '(titleish, sig) := acc in
  let wl := strip_chars (py ".,:;()[]") (lower w) in
  if existsb (str_eqb wl) SMALL_WORDS then (titleish, sig)
  else
    let sig := sig + 1 in
    if titleish_word w then (titleish + 1, sig) else (titleish, sig).

Definition _looks_like_project_title (text : str) : result bool :=
  let t := strip text in
  if (length t <? 2) || (120 <? length t) then Ok false
  else if endswith_any t SENTENCE_END then Ok false
  else
    let words := split_words t in
    if negb ((1 <=? length words) && (length words <=? 10)) then Ok false
    else
      let '(titleish, sig) := fold_left count_word words (0, 0) in
      (* sig and (titleish / sig) >= 0.6 *)
      and_then (Ok (negb (sig =? 0)))
               (q <- py_truediv titleish sig ;; Ok (Qle_bool (Qmake 6 10) q)).

Definition _word_count (text : str) : nat :=
  length (split_words (strip text)).

(** ** The parser: trailing-title splitter *)

(** [range(max(0, n - 10), n - 1)]. *)
Definition candidate_starts (n : nat) : list nat :=
  seq (n - 10) ((n - 1) - (n - 10)).

Definition candidate_at (tokens : list str) (start : nat) : str :=
  join (py " ") (skipn start tokens).

Definition prefix_at (tokens : list str) (start : nat) : str :=
  rstrip (join (py " ") (firstn start tokens)).

(** The [for start in range(...)] loop with its early [return]. *)
Fixpoint scan_starts (text : str) (tokens : list str) (starts : list nat)
  : result (str * option str) :=
  match starts with
  | [] => Ok (text, None)
  | start :: more =>
      let candidate := candidate_at tokens start in
      let prefix := prefix_at tokens start in
      hit <- and_then (Ok (truthy prefix)) (_looks_like_project_title candidate) ;;
      if hit then Ok (prefix, Some candidate)
      else scan_starts text tokens more
  end.

Definition _split_trailing_title_if_any (text : str)
  : result (str * option str) :=
  let tokens := re_split_ws (strip text) in
  scan_starts text tokens (candidate_starts (length tokens)).

(** [if maybe_title:] on [None] or a string. *)
Definition title_found (t : option str) : bool :=
  match t with Some x => truthy x | None => false end.

(** What [fixed.append(main); if maybe_title: fixed.append(maybe_title)]
    appends. *)
Definition split_items (main : str) (maybe_title : option str) : list str :=
  match maybe_title with
  | Some t => if truthy t then [main; t] else [main]
  | None => [main]
  end.

End Parser.

(** ** The parser: [split_and_merge] *)

Section Engine.
Context {U : UnicodeDB}.

Definition is_header (text : str) : bool :=
  found (re_match EXPERIENCE_HEADERS text)
  || found (re_match PROJECTS_HEADERS text)
  || found (re_match OTHER_HEADERS text).

(** The state of the first loop: [merged] and [section]. *)
Definition scan_state : Type := list str * option section.

(** [merged[-1] = merged[-1].rstrip() + tail]. *)
Definition extend_last (merged : list str) (tail : str) : result (list str) :=
  l <- index_last merged ;;
  set_last merged (rstrip l ++ tail).

(** The non-bullet, non-header branch under [section == 'proj']. *)
Definition proj_line (merged : list str) (text : str) : result (list str) :=
  last <- (if truthy_list merged then index_last merged else Ok []) ;;
  if negb (truthy_list merged) || found (re_match PROJECTS_HEADERS last)
  then Ok (merged ++ [text])
  else if _is_bullet last then
    ' (prefix, title) <- _split_trailing_title_if_any text ;;
    match title with
    | Some t =>
        if truthy t then
          m <- extend_last merged
                 (if truthy prefix then py " " ++ prefix else []) ;;
          Ok (m ++ [t])
        else extend_last merged (py " " ++ text)
    | None => extend_last merged (py " " ++ text)
    end
  else
    is_title <- _looks_like_project_title text ;;
    if is_title then Ok (merged ++ [text])
    else extend_last merged (py " " ++ text).

(** The non-bullet, non-header branch under [section == 'exp']. *)
Definition exp_line (merged : list str) (text : str) : result (list str) :=
  if _looks_like_job_header text then Ok (merged ++ [text])
  else
    (* merged[-1] = (merged[-1].rstrip() + ' ' + text) if merged else text *)
    v <- (if truthy_list merged
          then l <- index_last merged ;; Ok (rstrip l ++ py " " ++ text)
          else Ok text) ;;
    set_last merged v.

(** The body of [for raw in lines]. *)
Definition merge_step (st : scan_state) (raw : str) : result scan_state :=
  let '(merged, section) := st in
  if negb (truthy raw) then Ok st
  else
    let text := strip raw in
    if negb (truthy text) then Ok st
    else if found (re_match EXPERIENCE_HEADERS text)
    then Ok (merged ++ [text], Some SecExp)
    else if found (re_match PROJECTS_HEADERS text)
    then Ok (merged ++ [text], Some SecProj)
    else if found (re_match OTHER_HEADERS text)
    then Ok (merged ++ [text], None)
    else if _is_bullet text then
      match section with
      | Some SecProj =>
          ' (main, maybe_title) <- _split_trailing_title_if_any text ;;
          Ok (merged ++ split_items main maybe_title, section)
      | _ => Ok (merged ++ [text], section)
      end
    else
      match section with
      | Some SecProj => m <- proj_line merged text ;; Ok (m, section)
      | Some SecExp => m <- exp_line merged text ;; Ok (m, section)
      | None => Ok (merged ++ [text], section)
      end.

Definition merge_pass (lines : list str) : result scan_state :=
  for_each merge_step lines ([], None).

(** The state of the second loop: [current] (which list, if any), [exp] and
    [proj]. *)
Definition buckets : Type := option section * list str * list str.

Definition split_step (b : buckets) (line : str) : buckets :=
  let '(current, exp, proj) := b in
  if found (re_match EXPERIENCE_HEADERS line) then (Some SecExp, exp, proj)
  else if found (re_match PROJECTS_HEADERS line) then (Some SecProj, exp, proj)
  else if found (re_match OTHER_HEADERS line) then (None, exp, proj)
  else
    match current with
    | Some SecExp => (current, exp ++ [line], proj)
    | Some SecProj => (current, exp, proj ++ [line])
    | None => b
    end.

Definition section_split (merged : list str) : list str * list str :=
  let '(_, exp, proj) := fold_left split_step merged (None, [], []) in
  (exp, proj).

(** Post-pass 1: split any trailing title from any project item. *)
Definition post_pass1 (proj : list str) : result (list str) :=
  for_each
    (fun fixed item =>
       ' (main, maybe_title) <- _split_trailing_title_if_any item ;;
       Ok (fixed ++ split_items main maybe_title))
    proj [].

(** The test of post-pass 2 on [cur] and [proj[i+1]]. *)
Definition short_pair (cur next : str) : bool :=
  (_word_count cur <=? 4) && (_word_count next <=? 4)
  && (_word_count (cur ++ py " " ++ next) <=? 8).

(** Post-pass 2: the [while i < len(proj)] loop. *)
Fixpoint post_pass2_loop (fuel : nat) (proj : list str) (i : nat)
  (merged_titles : list str) : result (list str) :=
  if negb (i <? length proj) then Ok merged_titles
  else
    match fuel with
    | 0 => Raise LoopBound
    | S fuel' =>
        cur <- index proj i ;;
        both <- and_then (Ok (i + 1 <? length proj))
                  (and_then (_looks_like_project_title cur)
                     (next <- index proj (i + 1) ;;
                      _looks_like_project_title next)) ;;
        short <- (if both
                  then next <- index proj (i + 1) ;; Ok (short_pair cur next)
                  else Ok false) ;;
        if short then
          next <- index proj (i + 1) ;;
          post_pass2_loop fuel' proj (i + 2)
            (merged_titles ++ [strip (cur ++ py " " ++ next)])
        else
          post_pass2_loop fuel' proj (i + 1) (merged_titles ++ [cur])
    end.

Definition post_pass2 (proj : list str) : result (list str) :=
  post_pass2_loop (length proj) proj 0 [].

(** The tuple [(' -', '–', '—')]. *)
Definition DASH_END : list str := [py " -"; [8211%N]; [8212%N]].

(** The fragment post-pass 3 moves from the bullet [item], with what is
    left of the bullet; [None] when nothing is moved. *)
Definition rescue (item : str) : option (str * str) :=
  match re_search FRAG_RE (rstrip item) with
  | Some frag =>
      if truthy frag && negb (endswith_any (strip item) SENTENCE_END) then
        let trimmed := rstrip (slice_to item (rfind item frag)) in
        let trimmed :=
          if endswith_any trimmed DASH_END
          then rstrip (removelast trimmed) else trimmed in
        Some (trimmed, frag)
      else None
  | None => None
  end.

(** Post-pass 3: the [while i < len(proj)] loop; it assigns [proj[i+1]]. *)
Fixpoint post_pass3_loop (fuel : nat) (proj : list str) (i : nat)
  (final_proj : list str) : result (list str) :=
  if negb (i <? length proj) then Ok final_proj
  else
    match fuel with
    | 0 => Raise LoopBound
    | S fuel' =>
        item <- index proj i ;;
        cond <- and_then (Ok (i + 1 <? length proj))
                  (and_then (Ok (_is_bullet item))
                     (next <- index proj (i + 1) ;;
                      _looks_like_project_title next)) ;;
        match (if cond then rescue item else None) with
        | Some (trimmed, frag) =>
            next <- index proj (i + 1) ;;
            proj' <- set_index proj (i + 1) (strip (frag ++ py " " ++ next)) ;;
            post_pass3_loop fuel' proj' (i + 1) (final_proj ++ [trimmed])
        | None =>
            post_pass3_loop fuel' proj (i + 1) (final_proj ++ [item])
        end
    end.

Definition post_pass3 (proj : list str) : result (list str) :=
  post_pass3_loop (length proj) proj 0 [].

(** The three repair passes, in order. *)
Definition repair (proj : list str) : result (list str) :=
  p1 <- post_pass1 proj ;;
  p2 <- post_pass2 p1 ;;
  post_pass3 p2.

Definition split_and_merge (lines : list str) : result (list str * list str) :=
  ' (merged, _) <- merge_pass lines ;;
  let '(exp, proj) := section_split merged in
  proj' <- repair proj ;;
  Ok (exp, proj').

End Engine.

(** ** Reference definitions the properties are stated with *)

Section Reference.
Context {U : UnicodeDB}.

(** The value of [_looks_like_project_title] as a test. *)
Definition is_title (text : str) : bool :=
  match _looks_like_project_title text with
  | Ok b => b
  | Raise _ => false
  end.

(** A split point of the trailing-title splitter that qualifies: the prefix
    is not empty and the suffix looks like a title. *)
Definition valid_split (tokens : list str) (start : nat) : bool :=
  truthy (prefix_at tokens start) && is_title (candidate_at tokens start).

(** The splitter as a search for the first qualifying split point. *)
Definition first_split (text : str) (tokens : list str) (starts : list nat)
  : str * option str :=
  match find (valid_split tokens) starts with
  | Some start => (prefix_at tokens start, Some (candidate_at tokens start))
  | None => (text, None)
  end.

Definition trailing_split (text : str) : str * option str :=
  let tokens := re_split_ws (strip text) in
  first_split text tokens (candidate_starts (length tokens)).

(** The test under which post-pass 2 merges two neighbours. *)
Definition mergeable (cur next : str) : bool :=
  is_title cur && is_title next && short_pair cur next.

(** Post-pass 2 as a recursion on the list. *)
Fixpoint merge_titles (proj : list str) : list str :=
  match proj with
  | [] => []
  | cur :: rest =>
      match rest with
      | [] => [cur]
      | next :: rest' =>
          if mergeable cur next
          then strip (cur ++ py " " ++ next) :: merge_titles rest'
          else cur :: merge_titles rest
      end
  end.

Fixpoint has_mergeable_pair (proj : list str) : bool :=
  match proj with
  | [] => false
  | cur :: rest =>
      match rest with
      | [] => false
      | next :: _ => mergeable cur next || has_mergeable_pair rest
      end
  end.

(** What one iteration of post-pass 2 appends to [merged_titles]: the
    item [cur] as it is, or [cur] and [proj[i+1]] merged into one. *)
Inductive pass2_item : Type :=
| Kept (cur : str)
| Merged (cur next : str).

Definition item_text (it : pass2_item) : str :=
  match it with
  | Kept cur => cur
  | Merged cur next => strip (cur ++ py " " ++ next)
  end.

(** The items of [proj] an iteration consumed. *)
Definition item_sources (it : pass2_item) : list str :=
  match it with
  | Kept cur => [cur]
  | Merged cur next => [cur; next]
  end.

(** Post-pass 2 with a record of what each iteration did. *)
Fixpoint merge_trace (proj : list str) : list pass2_item :=
  match proj with
  | [] => []
  | cur :: rest =>
      match rest with
      | [] => [Kept cur]
      | next :: rest' =>
          if mergeable cur next
          then Merged cur next :: merge_trace rest'
          else Kept cur :: merge_trace rest
      end
  end.

(** The words of the specification for [looksLikeProjectTitle], over a
    test for significant words. *)
Definition title_cased (w : str) : bool :=
  isupper w
  || match w with
     | c :: rest => ch_isupper c && islower rest
     | [] => false
     end
  || found (re_match TITLE_TOKEN_RE w).

Definition reference_title (significant : str -> bool) (line : str) : bool :=
  let t := strip line in
  if length t <? 2 then false
  else if 120 <? length t then false
  else if endswith_any t SENTENCE_END then false
  else
    let ws := split_words t in
    if (length ws <? 1) || (10 <? length ws) then false
    else
      let sig := filter significant ws in
      let cased := filter title_cased sig in
      (1 <=? length sig) && (6 * length sig <=? 10 * length cased).

(** Significant as the specification words it: not in the stoplist. *)
Definition spec_significant (w : str) : bool :=
  negb (existsb (str_eqb w) SMALL_WORDS).

(** Significant as the code tests it: the word lower-cased and stripped of
    [.,:;()[]] at both ends is not in the stoplist. *)
Definition normalized_significant (w : str) : bool :=
  negb (existsb (str_eqb (strip_chars (py ".,:;()[]") (lower w))) SMALL_WORDS).

Definition spec_looksLikeProjectTitle : str -> bool :=
  reference_title spec_significant.

Definition normalized_looksLikeProjectTitle : str -> bool :=
  reference_title normalized_significant.

(** The invariant of the first loop: a section is active only after its
    header was appended. *)
Definition anchored (st : scan_state) : Prop :=
  fst st <> [] \/ snd st = None.

(** A token: not empty and free of white space. *)
Definition token_like (w : str) : Prop :=
  w <> [] /\ forallb (fun c => negb (isspace c)) w = true.

Definition headerless (l : list str) : Prop :=
  Forall (fun x => is_header x = false) l.

Definition no_line_feed (s : str) : bool :=
  forallb (fun c => negb (N.eqb c 10%N)) s.

End Reference.

(** ** Further reference definitions *)

(** [l1] is [l2] with some elements left out, the order kept. *)
Inductive subseq {A : Type} : list A -> list A -> Prop :=
| subseq_nil : subseq [] []
| subseq_skip x l1 l2 : subseq l1 l2 -> subseq l1 (x :: l2)
| subseq_take x l1 l2 : subseq l1 l2 -> subseq (x :: l1) (x :: l2).

Section Reference_items.
Context {U : UnicodeDB}.

(** An entry that is not empty and neither starts nor ends with white
    space. *)
Definition clean_entry (e : str) : Prop :=
  e <> [] /\ isspace (hd 0%N e) = false /\ isspace (last e 0%N) = false.

(** All the words of a list of items, in order. *)
Definition all_words (items : list str) : list str :=
  concat (map split_words items).

(** What post-pass 1 makes of one item. *)
Definition split_item (item : str) : list str :=
  let '(main, maybe_title) := trailing_split item in
  split_items main maybe_title.

(** Every white-space character is a single U+0020 that follows a
    character which is not white space. *)
Fixpoint single_spaced (after_space : bool) (s : str) : bool :=
  match s with
  | [] => true
  | c :: s' =>
      if isspace c
      then N.eqb c 32%N && negb after_space && single_spaced true s'
      else single_spaced false s'
  end.

(** The first character is one of the bullet glyphs. *)
Definition glyph_bullet (s : str) : Prop :=
  exists c d rest,
    s = c :: d :: rest
    /\ mem_char [8226; 45; 8211; 8212; 42]%N c = true
    /\ isspace d = true.

(** An optional [(], digits, one of [.)]] and white space. *)
Definition numbered_bullet (s : str) : Prop :=
  exists paren digits d w rest,
    s = paren ++ digits ++ d :: w :: rest
    /\ (paren = [] \/ paren = py "(")
    /\ digits <> []
    /\ forallb is_digit digits = true
    /\ mem_char (py ".)]") d = true
    /\ isspace w = true.

End Reference_items.

(** Every character of [e] is a space or a character of one of [lines]. *)
Definition chars_from (lines : list str) (c : char) : Prop :=
  c = 32%N \/ exists raw, In raw lines /\ In c raw.

(** ** The caller: line cleaning of [backend/app.py] *)

Module App.

Definition STOP_HEADINGS : list str :=
  map py ["find me online"; "contact"; "links"; "social";
          "key achievements"; "education"; "certifications"; "languages";
          "hobbies"; "interests"; "awards"; "publications"; "courses";
          "strengths"; "objective"; "profile"; "summary"; "skills"; "tools";
          "technologies"]%string.

Definition STOP_SUBSTRINGS : list str :=
  map py ["linkedin.com"; "github.com"; "www."; "http://"; "https://";
          "@gmail.com"; "email"; "phone"]%string.

(** [sub in s] on strings. *)
Fixpoint contains (s sub : str) : bool :=
  startswith s sub
  || match s with
     | [] => false
     | _ :: s' => contains s' sub
     end.

(** [s.replace(old, new)] for a non-empty [old]: the occurrences from the
    left, without overlap; [skip] characters of a replaced occurrence are
    still to be passed. *)
Fixpoint replace_from (old new : str) (skip : nat) (s : str) : str :=
  match s with
  | [] => []
  | c :: s' =>
      match skip with
      | S k => replace_from old new k s'
      | 0 =>
          if startswith s old
          then new ++ replace_from old new (length old - 1) s'
          else c :: replace_from old new 0 s'
      end
  end.

Definition replace (s old new : str) : str := replace_from old new 0 s.

Section Cleaning.
Context {U : UnicodeDB}.

(** [unicodedata.normalize("NFKC", s)], a table of the interpreter. *)
Variable nfkc : str -> str.

(** [re.sub(r, repl, s)] for a pattern that matches no empty string: the
    matches from the left, without overlap. *)
Fixpoint sub_from (r : regex) (repl : str) (skip : nat) (p : option char)
  (s : str) : str :=
  match s with
  | [] => []
  | c :: s' =>
      match skip with
      | S k => sub_from r repl k (Some c) s'
      | 0 =>
          match match_here r p s with
          | Some (_ :: m) => repl ++ sub_from r repl (length m) (Some c) s'
          | _ => c :: sub_from r repl 0 (Some c) s'
          end
      end
  end.

Definition re_sub (r : regex) (repl s : str) : str := sub_from r repl 0 None s.

(* [\ue000-\uf8ff] *)
Definition PRIVATE_USE_RE : regex := Range 57344%N 63743%N.

(* \s+ *)
Definition SPACES_RE : regex := Plus Space.

Definition clean_line (s : str) : str :=
  if negb (truthy s) then []
  else
    let s := replace s [0%N] [] in
    let s := re_sub PRIVATE_USE_RE [] s in
    let s := nfkc s in
    strip (re_sub SPACES_RE (py " ") s).

Definition is_noise (s : str) : bool :=
  let low := lower s in
  if existsb (str_eqb low) STOP_HEADINGS then true
  else if existsb (contains low) STOP_SUBSTRINGS then true
  else if length low <=? 2 then true
  else false.

(** The body of [for ln in lines]. *)
Definition preprocess_step (out : list str) (ln : str) : list str :=
  let ln := clean_line ln in
  if negb (truthy ln) then out
  else if is_noise ln then out
  else out ++ [ln].

Definition preprocess_lines (lines : list str) : list str :=
  fold_left preprocess_step lines [].

(** What [parse_resume] computes from the extracted lines. *)
Definition parse_lines (raw_lines : list str) : result (list str * list str) :=
  split_and_merge (preprocess_lines raw_lines).

End Cleaning.
End App.

(** * Properties *)

(** ** Lists and fallible operations *)

Lemma index_ok {A} (l : list A) i :
  i < length l -> exists x, index l i = Ok x /\ nth_error l i = Some x.
Proof.
  intros H. unfold index.
  destruct (nth_error l i) eqn:E; [eauto|].
  apply nth_error_None in E. lia.
Qed.

Lemma index_last_snoc {A} (l : list A) x : index_last (l ++ [x]) = Ok x.
Proof. unfold index_last. now rewrite rev_app_distr. Qed.

Lemma set_last_snoc {A} (l : list A) x v : set_last (l ++ [x]) v = Ok (l ++ [v]).
Proof. unfold set_last. rewrite rev_app_distr. simpl. now rewrite rev_involutive. Qed.

Lemma nonempty_snoc {A} (l : list A) :
  l <> [] -> exists l' x, l = l' ++ [x].
Proof.
  intros H. destruct (exists_last H) as (l' & x & ->). eauto.
Qed.

Lemma truthy_list_true {A} (l : list A) : truthy_list l = true <-> l <> [].
Proof. destruct l; simpl; split; congruence. Qed.

Lemma set_index_ok {A} (l : list A) i v :
  i < length l ->
  exists l', set_index l i v = Ok l' /\ length l' = length l.
Proof.
  revert i. induction l as [|x l IH]; simpl; intros i H; [lia|].
  destruct i as [|i].
  - eexists. split; [reflexivity|]. reflexivity.
  - destruct (IH i) as (l' & E & L); [lia|].
    rewrite E. simpl. eexists. split; [reflexivity|]. simpl. now rewrite L.
Qed.

(** ** No helper raises *)

Section Totality.
Context {U : UnicodeDB}.

Lemma and_then_ok a b : and_then (Ok a) (Ok b) = Ok (a && b).
Proof. now destruct a. Qed.

Lemma title_ok t : _looks_like_project_title t = Ok (is_title t).
Proof.
  unfold is_title.
  enough (exists b, _looks_like_project_title t = Ok b) as [b ->] by reflexivity.
  unfold _looks_like_project_title.
  destruct (_ || _); [eauto|].
  destruct (endswith_any _ _); [eauto|].
  destruct (negb _); [eauto|].
  destruct (fold_left _ _ _) as [titleish sig].
  destruct sig; simpl; eauto.
Qed.

Lemma scan_starts_ok text tokens starts :
  scan_starts text tokens starts = Ok (first_split text tokens starts).
Proof.
  unfold first_split.
  induction starts as [|start more IH]; [reflexivity|].
  cbn [scan_starts find]. rewrite title_ok, and_then_ok. cbn [bind].
  unfold valid_split.
  destruct (truthy _ && is_title _); [reflexivity|exact IH].
Qed.

Lemma split_ok text :
  _split_trailing_title_if_any text = Ok (trailing_split text).
Proof. apply scan_starts_ok. Qed.

Lemma strip_nonempty raw : strip raw <> [] -> truthy raw = true.
Proof. destruct raw; [intros H; now elim H|reflexivity]. Qed.

Lemma truthy_nonempty s : s <> [] -> truthy s = true.
Proof. destruct s; [intros H; now elim H|reflexivity]. Qed.

Lemma extend_last_snoc l x tail :
  extend_last (l ++ [x]) tail = Ok (l ++ [rstrip x ++ tail]).
Proof.
  unfold extend_last. rewrite index_last_snoc. simpl. apply set_last_snoc.
Qed.

Lemma proj_line_ok merged text : exists m, proj_line merged text = Ok m /\ m <> [].
Proof.
  unfold proj_line.
  destruct merged as [|a l] using rev_ind.
  - simpl. eexists. split; [reflexivity|discriminate].
  - clear IHl.
    assert (T : truthy_list (l ++ [a]) = true)
      by (apply truthy_list_true; now destruct l).
    rewrite T, index_last_snoc. simpl.
    destruct (found _).
    { eexists. split; [reflexivity|]. now destruct (l ++ [a]). }
    destruct (_is_bullet a).
    + rewrite split_ok. simpl. destruct (trailing_split text) as [prefix [t|]].
      * destruct (truthy t); rewrite extend_last_snoc; simpl;
          eexists; (split; [reflexivity|]);
          match goal with |- ?x ++ _ <> [] => now destruct x end.
      * rewrite extend_last_snoc. eexists. split; [reflexivity|]. now destruct l.
    + rewrite title_ok. simpl.
      destruct (is_title text).
      * eexists. split; [reflexivity|]. now destruct (l ++ [a]).
      * rewrite extend_last_snoc. eexists. split; [reflexivity|]. now destruct l.
Qed.

Lemma exp_line_ok merged text :
  merged <> [] -> exists m, exp_line merged text = Ok m /\ m <> [].
Proof.
  intros H. destruct (nonempty_snoc H) as (l & a & ->).
  unfold exp_line.
  destruct (_looks_like_job_header text).
  - eexists. split; [reflexivity|]. now destruct (l ++ [a]).
  - assert (T : truthy_list (l ++ [a]) = true)
      by (apply truthy_list_true; now destruct l).
    rewrite T, index_last_snoc. simpl. rewrite set_last_snoc.
    eexists. split; [reflexivity|]. now destruct l.
Qed.

Lemma merge_step_ok st raw :
  anchored st -> exists st', merge_step st raw = Ok st' /\ anchored st'.
Proof.
  intros I. destruct st as [merged sec]. unfold merge_step.
  destruct (negb (truthy raw)); [eauto|].
  destruct (negb (truthy (strip raw))); [eauto|].
  set (text := strip raw).
  assert (NE : forall l : list str, merged ++ l <> [] \/ l = []).
  { intros l. destruct l; [now right|left]. now destruct merged. }
  assert (A1 : forall s, anchored (merged ++ [text], s)).
  { intros s. left. simpl. now destruct merged. }
  destruct (found _); [eauto|].
  destruct (found _); [eauto|].
  destruct (found _); [eauto|].
  destruct (_is_bullet text).
  - destruct sec as [[|]|]; [eauto| |eauto].
    rewrite split_ok. simpl. destruct (trailing_split text) as [main mt].
    eexists. split; [reflexivity|]. left. simpl.
    unfold split_items. destruct mt as [t|]; [destruct (truthy t)|];
      now destruct merged.
  - destruct sec as [[|]|]; [| |eauto].
    + destruct I as [I|I]; [|discriminate]. simpl in I.
      destruct (exp_line_ok text I) as (m & -> & Hm). simpl.
      eexists. split; [reflexivity|]. now left.
    + destruct (proj_line_ok merged text) as (m & -> & Hm). simpl.
      eexists. split; [reflexivity|]. now left.
Qed.

Lemma merge_from_ok lines st :
  anchored st -> exists st', for_each merge_step lines st = Ok st' /\ anchored st'.
Proof.
  revert st. induction lines as [|raw lines IH]; simpl; intros st I; [eauto|].
  destruct (merge_step_ok raw I) as (st' & -> & I'). simpl. now apply IH.
Qed.

Lemma merge_pass_ok lines : exists st, merge_pass lines = Ok st.
Proof.
  destruct (@merge_from_ok lines ([], None)) as (st & E & _); [now right|].
  eauto.
Qed.

Lemma post_pass1_from_ok proj fixed :
  exists r,
    for_each
      (fun fixed item =>
         ' (main, maybe_title) <- _split_trailing_title_if_any item ;;
         Ok (fixed ++ split_items main maybe_title)) proj fixed = Ok r.
Proof.
  revert fixed. induction proj as [|item proj IH]; simpl; intros fixed; [eauto|].
  rewrite split_ok. simpl. destruct (trailing_split item). apply IH.
Qed.

Lemma post_pass1_ok proj : exists r, post_pass1 proj = Ok r.
Proof. apply post_pass1_from_ok. Qed.

Lemma skipn_nth {A} (l : list A) i x :
  nth_error l i = Some x -> skipn i l = x :: skipn (S i) l.
Proof.
  revert i. induction l as [|y l IH]; intros [|i]; simpl; try discriminate.
  - now intros [= ->].
  - apply IH.
Qed.

Lemma merge_titles_pair cur next rest :
  merge_titles (cur :: next :: rest) =
  if mergeable cur next
  then strip (cur ++ py " " ++ next) :: merge_titles rest
  else cur :: merge_titles (next :: rest).
Proof. reflexivity. Qed.

(** The loop of post-pass 2 computes [merge_titles] on what is left. *)
Lemma post_pass2_loop_spec fuel : forall proj i acc,
  length proj - i <= fuel ->
  post_pass2_loop fuel proj i acc = Ok (acc ++ merge_titles (skipn i proj)).
Proof.
  induction fuel as [|fuel IH]; intros proj i acc Hf.
  - cbn [post_pass2_loop].
    destruct (i <? length proj) eqn:E.
    + apply Nat.ltb_lt in E. lia.
    + apply Nat.ltb_ge in E. simpl. rewrite skipn_all2 by lia.
      simpl. now rewrite app_nil_r.
  - cbn [post_pass2_loop].
    destruct (i <? length proj) eqn:E; cbn [negb].
    2:{ apply Nat.ltb_ge in E. rewrite skipn_all2 by lia.
        simpl. now rewrite app_nil_r. }
    apply Nat.ltb_lt in E.
    destruct (index_ok proj E) as (cur & -> & Hcur). cbn [bind].
    rewrite (skipn_nth _ _ Hcur).
    destruct (i + 1 <? length proj) eqn:E1.
    + apply Nat.ltb_lt in E1.
      destruct (index_ok proj E1) as (next & -> & Hnext). cbn [bind].
      rewrite !title_ok, !and_then_ok. cbn [bind andb].
      replace (S i) with (i + 1) by lia.
      assert (Hs : skipn (i + 1) proj = next :: skipn (i + 2) proj).
      { rewrite (skipn_nth _ _ Hnext). f_equal. f_equal. lia. }
      rewrite Hs, merge_titles_pair. unfold mergeable.
      destruct (is_title cur && is_title next); cbn [bind andb].
      * destruct (short_pair cur next).
        -- rewrite IH by lia. rewrite <- app_assoc. reflexivity.
        -- rewrite IH by lia. rewrite <- app_assoc, Hs. reflexivity.
      * rewrite IH by lia. rewrite <- app_assoc, Hs. reflexivity.
    + apply Nat.ltb_ge in E1. cbn [and_then bind].
      rewrite IH by lia. rewrite <- app_assoc. cbn [app].
      rewrite (skipn_all2 (n := S i)) by lia.
      rewrite (skipn_all2 (n := i + 1)) by lia. reflexivity.
Qed.

Lemma post_pass2_ok proj : post_pass2 proj = Ok (merge_titles proj).
Proof.
  unfold post_pass2. rewrite post_pass2_loop_spec by lia. reflexivity.
Qed.

Lemma post_pass3_loop_ok fuel : forall proj i acc,
  length proj - i <= fuel ->
  exists r, post_pass3_loop fuel proj i acc = Ok r.
Proof.
  induction fuel as [|fuel IH]; intros proj i acc Hf.
  - cbn [post_pass3_loop].
    destruct (i <? length proj) eqn:E; cbn [negb]; [|eauto].
    apply Nat.ltb_lt in E. lia.
  - cbn [post_pass3_loop].
    destruct (i <? length proj) eqn:E; cbn [negb]; [|eauto].
    apply Nat.ltb_lt in E.
    destruct (index_ok proj E) as (item & -> & _). cbn [bind].
    destruct (i + 1 <? length proj) eqn:E1.
    + apply Nat.ltb_lt in E1.
      destruct (index_ok proj E1) as (next & -> & _). cbn [bind].
      rewrite title_ok, !and_then_ok. cbn [bind andb].
      destruct (if _is_bullet item && is_title next then rescue item else None)
        as [[trimmed frag]|].
      * destruct (set_index_ok proj (strip (frag ++ py " " ++ next)) E1)
          as (proj' & -> & L).
        cbn [bind]. apply IH. lia.
      * apply IH. lia.
    + cbn [and_then bind]. apply IH. lia.
Qed.

Lemma post_pass3_ok proj : exists r, post_pass3 proj = Ok r.
Proof. apply post_pass3_loop_ok. lia. Qed.

Lemma repair_ok proj : exists r, repair proj = Ok r.
Proof.
  unfold repair.
  destruct (post_pass1_ok proj) as [p1 ->]. cbn [bind].
  rewrite post_pass2_ok. cbn [bind]. apply post_pass3_ok.
Qed.

End Totality.

(** ** The engine never raises *)

Section Engine_total.
Context {U : UnicodeDB}.

(** C6. [split_and_merge] is total: on every list of strings it returns a
    pair of lists and raises nothing (no index is out of range, the
    division is never by zero, both [while] loops end), and on the empty
    list it returns [([], [])]. *)
Theorem split_and_merge_total :
  (forall lines : list str,
      exists exp proj, split_and_merge lines = Ok (exp, proj))
  /\ split_and_merge [] = Ok ([], []).
Proof.
  split; [|reflexivity].
  intros lines. unfold split_and_merge.
  destruct (merge_pass_ok lines) as [[merged sec] ->]. cbn [bind].
  destruct (section_split merged) as [exp proj].
  destruct (repair_ok proj) as [proj' ->]. cbn [bind]. eauto.
Qed.

End Engine_total.

(** ** Post-pass 2 *)

Section Pass2.
Context {U : UnicodeDB}.

Lemma merge_titles_length n : forall l,
  length l <= n -> length (merge_titles l) <= length l.
Proof.
  induction n as [|n IH]; intros [|cur [|next rest]] H; simpl in *; try lia.
  destruct (mergeable cur next); simpl.
  - specialize (IH rest). lia.
  - specialize (IH (next :: rest)). simpl in IH. lia.
Qed.

Lemma merge_titles_shrinks n : forall l,
  length l <= n -> has_mergeable_pair l = true ->
  length (merge_titles l) < length l.
Proof.
  induction n as [|n IH]; intros [|cur [|next rest]] H P;
    try discriminate; [simpl in H; lia|].
  rewrite merge_titles_pair.
  cbn [has_mergeable_pair] in P. simpl in H.
  destruct (mergeable cur next); simpl.
  - pose proof (@merge_titles_length (length rest) rest (le_n _)). lia.
  - simpl in P. specialize (IH (next :: rest)). simpl in IH.
    apply IH in P; lia.
Qed.

Lemma merge_titles_clean l :
  has_mergeable_pair l = false -> merge_titles l = l.
Proof.
  induction l as [|cur rest IH]; [reflexivity|].
  destruct rest as [|next rest]; [reflexivity|].
  cbn [has_mergeable_pair]. intros P.
  apply orb_false_iff in P as [P1 P2].
  rewrite merge_titles_pair, P1. f_equal. now apply IH.
Qed.

End Pass2.

(** ** Header lines *)

Section Headers.
Context {U : UnicodeDB}.

Lemma split_step_headerless b line :
  headerless (snd (fst b)) /\ headerless (snd b) ->
  headerless (snd (fst (split_step b line)))
  /\ headerless (snd (split_step b line)).
Proof.
  destruct b as [[current exp] proj]. simpl. intros [He Hp].
  unfold split_step.
  destruct (found (re_match EXPERIENCE_HEADERS line)) eqn:E1; [now split|].
  destruct (found (re_match PROJECTS_HEADERS line)) eqn:E2; [now split|].
  destruct (found (re_match OTHER_HEADERS line)) eqn:E3; [now split|].
  assert (H : is_header line = false).
  { unfold is_header. now rewrite E1, E2, E3. }
  destruct current as [[|]|]; simpl; split; trivial;
    apply Forall_app; split; trivial; now constructor.
Qed.

Lemma fold_split_headerless merged : forall b,
  headerless (snd (fst b)) /\ headerless (snd b) ->
  headerless (snd (fst (fold_left split_step merged b)))
  /\ headerless (snd (fold_left split_step merged b)).
Proof.
  induction merged as [|line merged IH]; intros b H; [exact H|].
  simpl. apply IH. now apply split_step_headerless.
Qed.

Lemma section_split_headerless merged :
  headerless (fst (section_split merged))
  /\ headerless (snd (section_split merged)).
Proof.
  unfold section_split.
  pose proof (@fold_split_headerless merged (None, [], [])) as H.
  destruct (fold_left split_step merged (None, [], [])) as [[c e] p].
  simpl in *. apply H. split; constructor.
Qed.

(** C7, as amended.  The engine returns the experience list of the section
    splitter and the repaired projects list of the section splitter; no
    item of the experience list and no item of the projects list as the
    section splitter leaves it matches a header pattern, so that no header
    line of the input is an item of either. *)
Theorem header_exclusion (lines : list str) :
  exists merged sec proj,
    merge_pass lines = Ok (merged, sec)
    /\ repair (snd (section_split merged)) = Ok proj
    /\ split_and_merge lines = Ok (fst (section_split merged), proj)
    /\ forall raw, In raw lines -> is_header (strip raw) = true ->
         ~ In (strip raw) (fst (section_split merged))
         /\ ~ In (strip raw) (snd (section_split merged)).
Proof.
  destruct (merge_pass_ok lines) as [[merged sec] E].
  destruct (repair_ok (snd (section_split merged))) as [proj R].
  exists merged, sec, proj. repeat split; trivial.
  - unfold split_and_merge. rewrite E. cbn [bind].
    destruct (section_split merged) as [exp proj0]. simpl in R.
    now rewrite R.
  - intros I. destruct (section_split_headerless merged) as [He _].
    unfold headerless in He. rewrite Forall_forall in He.
    apply He in I. congruence.
  - intros I. destruct (section_split_headerless merged) as [_ Hp].
    unfold headerless in Hp. rewrite Forall_forall in Hp.
    apply Hp in I. congruence.
Qed.

End Headers.

Section Headers_example.
#[local] Existing Instance ascii_only.

(** C7, as stated, fails: the header line [Projects Hub] switches the
    section, and post-pass 1 splits the same text off the next line as an
    item of the projects list. *)
Lemma header_text_in_projects :
  let lines := map py ["Projects Hub"; "my Projects Hub"]%string in
  In (py "Projects Hub") lines
  /\ found (re_match PROJECTS_HEADERS (py "Projects Hub")) = true
  /\ split_and_merge lines = Ok ([], map py ["my"; "Projects Hub"]%string)
  /\ In (py "Projects Hub") (map py ["my"; "Projects Hub"]%string).
Proof.
  repeat split; try (vm_compute; reflexivity).
  - left. reflexivity.
  - right. left. reflexivity.
Qed.

End Headers_example.

(** ** The scenarios of the specification *)

Section Scenarios.
Context {U : UnicodeDB}.

(** C1, as amended.  On [Projects], [- Built dashboard for metrics
    AnalyticsSuite], [Real-Time Monitor] the second line is a bullet and the
    third its continuation; post-pass 1 then splits the joined item after
    its first token, and the projects output is the bullet glyph followed by
    the rest of the text as one title. *)
Theorem scenario_C_projects :
  split_and_merge
    (map py ["Projects"; "- Built dashboard for metrics AnalyticsSuite";
             "Real-Time Monitor"]%string)
  = Ok ([], map py ["-";
          "Built dashboard for metrics AnalyticsSuite Real-Time Monitor"]%string).
Proof. vm_compute. reflexivity. Qed.

(** C2, as amended.  On [Projects], [Suspicious], [Activity Detection],
    [- Built a model for X.] the two title fragments are merged into one
    item, and the bullet item is kept as it is, glyph included. *)
Theorem scenario_A_projects :
  split_and_merge
    (map py ["Projects"; "Suspicious"; "Activity Detection";
             "- Built a model for X."]%string)
  = Ok ([], map py ["Suspicious Activity Detection";
                    "- Built a model for X."]%string).
Proof. vm_compute. reflexivity. Qed.

(** In the merge pass a bullet line is always appended as a new entry. *)
Lemma bullet_line_appended (merged : list str) (sec : option section)
  (raw : str) :
  strip raw <> [] -> _is_bullet (strip raw) = true ->
  exists item items sec',
    merge_step (merged, sec) raw = Ok (merged ++ item :: items, sec').
Proof.
  intros Ht Hb. unfold merge_step.
  rewrite (strip_nonempty raw Ht), (truthy_nonempty Ht), Hb. cbn [negb].
  destruct (found _); [eauto|].
  destruct (found _); [eauto|].
  destruct (found _); [eauto|].
  destruct sec as [[|]|]; [eauto| |eauto].
  rewrite split_ok. cbn [bind].
  destruct (trailing_split (strip raw)) as [main [t|]]; unfold split_items;
    [destruct (truthy t)|]; eauto.
Qed.

(** C5 on a failing input.  The bullet line [- Beta Gamma ...] is split by
    post-pass 1 into [- Beta Gamma] and a ten-word title; post-pass 2 then
    joins [- Beta Gamma] onto the title [Alpha] before it, so that the
    bullet line does not begin an item of the output. *)
Theorem bullet_joined_to_title :
  let bullet := py "- Beta Gamma Abc Cde Efg Ghi Ijk Klm Mno Opq Qrs." in
  _is_bullet bullet = true
  /\ split_and_merge [py "Projects"; py "Alpha"; bullet; py "Stu"]
     = Ok ([], map py ["Alpha - Beta Gamma";
                       "Abc Cde Efg Ghi Ijk Klm Mno Opq Qrs. Stu"]%string).
Proof. split; vm_compute; reflexivity. Qed.

End Scenarios.

Section Scenarios_example.
#[local] Existing Instance ascii_only.

(** C1, as stated, fails: the projects output is not the bullet text
    without [AnalyticsSuite] followed by [AnalyticsSuite Real-Time
    Monitor]. *)
Lemma scenario_C_not_rescued :
  split_and_merge
    (map py ["Projects"; "- Built dashboard for metrics AnalyticsSuite";
             "Real-Time Monitor"]%string)
  = Ok ([], map py ["-";
          "Built dashboard for metrics AnalyticsSuite Real-Time Monitor"]%string)
  /\ map py ["-";
       "Built dashboard for metrics AnalyticsSuite Real-Time Monitor"]%string
     <> map py ["Built dashboard for metrics";
                "AnalyticsSuite Real-Time Monitor"]%string.
Proof.
  split; [vm_compute; reflexivity|discriminate].
Qed.

(** C2, as stated, fails: the second item of the projects output still
    starts with the bullet glyph. *)
Lemma scenario_A_keeps_glyph :
  split_and_merge
    (map py ["Projects"; "Suspicious"; "Activity Detection";
             "- Built a model for X."]%string)
  = Ok ([], map py ["Suspicious Activity Detection";
                    "- Built a model for X."]%string)
  /\ map py ["Suspicious Activity Detection"; "- Built a model for X."]%string
     <> map py ["Suspicious Activity Detection";
                "Built a model for X."]%string.
Proof.
  split; [vm_compute; reflexivity|discriminate].
Qed.

End Scenarios_example.

(** ** The title test against its reference definitions *)

Section Title.
Context {U : UnicodeDB}.

Lemma titleish_word_cased w : titleish_word w = title_cased w.
Proof. destruct w; reflexivity. Qed.

Lemma count_word_step titleish sig w :
  count_word (titleish, sig) w
  = if normalized_significant w
    then (if title_cased w then titleish + 1 else titleish, sig + 1)
    else (titleish, sig).
Proof.
  unfold count_word, normalized_significant.
  destruct (existsb _ SMALL_WORDS); cbn [negb]; [reflexivity|].
  rewrite titleish_word_cased. now destruct (title_cased w).
Qed.

Lemma count_words ws : forall titleish sig,
  fold_left count_word ws (titleish, sig)
  = (titleish + length (filter title_cased (filter normalized_significant ws)),
     sig + length (filter normalized_significant ws)).
Proof.
  induction ws as [|w ws IH]; intros titleish sig.
  - simpl. f_equal; lia.
  - cbn [fold_left filter]. rewrite count_word_step.
    destruct (normalized_significant w); [|apply IH].
    cbn [filter].
    destruct (title_cased w); rewrite IH; cbn [length]; f_equal; lia.
Qed.

Lemma ratio_test titleish sig :
  and_then (Ok (negb (sig =? 0)))
    (q <- py_truediv titleish sig ;; Ok (Qle_bool (Qmake 6 10) q))
  = Ok ((1 <=? sig) && (6 * sig <=? 10 * titleish)).
Proof.
  destruct sig as [|k]; [reflexivity|].
  cbn [Nat.eqb negb and_then bind py_truediv Nat.leb andb]. f_equal.
  unfold Qle_bool. cbn [Qnum Qden].
  assert (E : Z.pos (Pos.of_nat (S k)) = Z.of_nat (S k)).
  { rewrite <- Pos.of_nat_succ. reflexivity. }
  rewrite E.
  destruct (Z.leb_spec (6 * Z.of_nat (S k)) (Z.of_nat titleish * 10));
    destruct (Nat.leb_spec (6 * S k) (10 * titleish)); trivial; lia.
Qed.

(** C8, as amended.  [_looks_like_project_title] never raises and equals
    the reference definition in which a word is significant when its
    lower-cased form, stripped of [.,:;()[]] at both ends, is not in the
    stoplist. *)
Theorem looks_like_project_title_reference (line : str) :
  _looks_like_project_title line = Ok (normalized_looksLikeProjectTitle line).
Proof.
  unfold _looks_like_project_title, normalized_looksLikeProjectTitle,
    reference_title.
  set (t := strip line).
  destruct (length t <? 2); [reflexivity|].
  destruct (120 <? length t); [reflexivity|]. cbn [orb].
  destruct (endswith_any t SENTENCE_END); [reflexivity|].
  set (ws := split_words t).
  assert (E : negb ((1 <=? length ws) && (length ws <=? 10))
              = (length ws <? 1) || (10 <? length ws)).
  { destruct (Nat.leb_spec 1 (length ws)), (Nat.leb_spec (length ws) 10),
      (Nat.ltb_spec (length ws) 1), (Nat.ltb_spec 10 (length ws));
      trivial; lia. }
  rewrite E. destruct (_ || _); [reflexivity|].
  rewrite count_words. cbn [Nat.add]. apply ratio_test.
Qed.

End Title.

Section Title_example.
#[local] Existing Instance ascii_only.

(** C8, as stated, fails: in [Foo Bar (The) b] the code drops [(The)] as a
    small word and finds two title-cased words out of three, where the
    stoplist as worded keeps it and finds two out of four. *)
Lemma stoplist_is_normalized :
  _looks_like_project_title (py "Foo Bar (The) b") = Ok true
  /\ spec_looksLikeProjectTitle (py "Foo Bar (The) b") = false.
Proof. split; vm_compute; reflexivity. Qed.

End Title_example.

(** ** Stripping, splitting and joining *)

Section Tokens.
Context {U : UnicodeDB}.

Lemma drop_while_app f x y :
  drop_while f (x ++ y)
  = if forallb f x then drop_while f y else drop_while f x ++ y.
Proof.
  induction x as [|c x IH]; simpl; [reflexivity|].
  destruct (f c); simpl; [exact IH|reflexivity].
Qed.

Lemma drop_while_length f s : length (drop_while f s) <= length s.
Proof.
  induction s as [|c s IH]; simpl; [lia|]. destruct (f c); simpl; lia.
Qed.

Lemma drop_while_head f s c r : drop_while f s = c :: r -> f c = false.
Proof.
  induction s as [|d s IH]; simpl; [discriminate|].
  destruct (f d) eqn:E; [exact IH|]. now intros [= -> _].
Qed.

Lemma drop_while_last f s d :
  drop_while f s <> [] -> last (drop_while f s) d = last s d.
Proof.
  induction s as [|c s IH]; simpl; [congruence|].
  destruct (f c) eqn:E; [|reflexivity].
  intros H. rewrite (IH H). destruct s; [simpl in H; congruence|reflexivity].
Qed.

Lemma last_rev {A} (l : list A) d : last (rev l) d = hd d l.
Proof.
  destruct l as [|x l]; [reflexivity|]. simpl. apply last_last.
Qed.

Lemma rstrip_by_length f s : length (rstrip_by f s) <= length s.
Proof.
  unfold rstrip_by. rewrite length_rev.
  pose proof (drop_while_length f (rev s)). rewrite length_rev in H. exact H.
Qed.

Lemma rstrip_by_app f a c :
  rstrip_by f (a ++ c)
  = if forallb f (rev c) then rstrip_by f a else a ++ rstrip_by f c.
Proof.
  unfold rstrip_by. rewrite rev_app_distr, drop_while_app.
  destruct (forallb f (rev c)); [reflexivity|].
  now rewrite rev_app_distr, rev_involutive.
Qed.

Lemma rstrip_by_grows f a c :
  length (rstrip_by f a) <= length (rstrip_by f (a ++ c)).
Proof.
  rewrite rstrip_by_app. destruct (forallb f (rev c)); [lia|].
  rewrite length_app. pose proof (rstrip_by_length f a). lia.
Qed.

Lemma isspace_nul : isspace 0%N = false.
Proof. reflexivity. Qed.

(** A stripped string neither starts nor ends with white space. *)
Lemma strip_ends text :
  isspace (last (strip text) 0%N) = false
  /\ isspace (hd 0%N (strip text)) = false.
Proof.
  unfold strip, lstrip_by.
  destruct (drop_while isspace (rstrip_by isspace text)) as [|c r] eqn:E.
  - split; apply isspace_nul.
  - split; [|simpl; eapply drop_while_head; eassumption].
    rewrite <- E, drop_while_last by (rewrite E; discriminate).
    unfold rstrip_by. rewrite last_rev.
    destruct (drop_while isspace (rev text)) as [|d q] eqn:F;
      [apply isspace_nul|].
    simpl. eapply drop_while_head; eassumption.
Qed.

Lemma strip_clean s :
  s <> [] -> isspace (hd 0%N s) = false -> isspace (last s 0%N) = false ->
  strip s = s.
Proof.
  intros NE Hh Hl. unfold strip, lstrip_by, rstrip_by.
  destruct (exists_last NE) as (r & c & ->).
  rewrite last_last in Hl.
  rewrite rev_app_distr. simpl. rewrite Hl. simpl.
  rewrite rev_involutive.
  destruct r as [|d r]; simpl in *; now rewrite ?Hh, ?Hl.
Qed.

(** The pieces of a split are free of white space. *)
Lemma split_pieces_spaceless s : forall g,
  Forall (fun w => forallb (fun c => negb (isspace c)) w = true)
         (re_split_ws_from g s).
Proof.
  induction s as [|c s IH]; intros g; simpl.
  - constructor; [reflexivity|constructor].
  - destruct (isspace c) eqn:E.
    + destruct g; [apply IH|]. constructor; [reflexivity|apply IH].
    + specialize (IH false).
      destruct (re_split_ws_from false s) as [|w ws].
      * constructor; [simpl; now rewrite E|constructor].
      * inversion IH; subst. constructor; [simpl; now rewrite E|assumption].
Qed.

Lemma split_cons g c s :
  re_split_ws_from g (c :: s)
  = if isspace c then
      if g then re_split_ws_from true s else [] :: re_split_ws_from true s
    else
      match re_split_ws_from false s with
      | w :: ws => (c :: w) :: ws
      | [] => [[c]]
      end.
Proof. reflexivity. Qed.

(** Only the first and the last piece of a split can be empty. *)
Lemma split_pieces_nonempty s : forall g,
  isspace (last s 0%N) = false ->
  Forall (fun w => w <> []) (tl (re_split_ws_from g s))
  /\ (s <> [] -> g = true \/ isspace (hd 0%N s) = false ->
      Forall (fun w : str => w <> []) (re_split_ws_from g s)).
Proof.
  induction s as [|c s IH]; intros g L.
  - split; [constructor|congruence].
  - destruct s as [|c' s'].
    + simpl in L. simpl. rewrite L. simpl.
      split; [constructor|]. intros _ _. constructor; [discriminate|constructor].
    + assert (L' : isspace (last (c' :: s') 0%N) = false) by exact L.
      assert (NE : c' :: s' <> []) by discriminate.
      rewrite split_cons. revert IH L' NE. generalize (c' :: s') as t.
      intros t IH L' NE.
      destruct (isspace c) eqn:E.
      * destruct g.
        -- destruct (IH true L') as [Q P]. split; [exact Q|].
           intros _ _. apply P; [exact NE|now left].
        -- destruct (IH true L') as [Q P]. split.
           ++ simpl. apply P; [exact NE|now left].
           ++ intros _ [H|H]; [discriminate|]. simpl in H. congruence.
      * destruct (IH false L') as [Q _].
        destruct (re_split_ws_from false t) as [|w ws].
        -- split; [constructor|]. intros _ _.
           constructor; [discriminate|constructor].
        -- simpl in Q. split; [exact Q|]. intros _ _.
           constructor; [discriminate|exact Q].
Qed.

(** The tokens of a stripped, non-empty text. *)
Lemma tokens_like text :
  strip text <> [] -> Forall token_like (re_split_ws (strip text)).
Proof.
  intros NE. destruct (strip_ends text) as [Hl Hh].
  destruct (split_pieces_nonempty (strip text) false Hl) as [_ P].
  specialize (P NE (or_intror Hh)).
  pose proof (split_pieces_spaceless (strip text) false) as S.
  unfold re_split_ws. rewrite Forall_forall in *.
  intros w I. split; auto.
Qed.

Lemma split_empty : re_split_ws [] = [[]].
Proof. reflexivity. Qed.

Lemma split_nonempty s : forall g, re_split_ws_from g s <> [].
Proof.
  induction s as [|c s IH]; intros g; [discriminate|].
  rewrite split_cons. destruct (isspace c).
  - destruct g; [apply IH|discriminate].
  - destruct (re_split_ws_from false s); discriminate.
Qed.

(** A token at the front of a string is the front of its first piece. *)
Lemma split_token w rest :
  forallb (fun c => negb (isspace c)) w = true ->
  re_split_ws_from false (w ++ rest)
  = match re_split_ws_from false rest with
    | p :: ps => (w ++ p) :: ps
    | [] => [w]
    end.
Proof.
  induction w as [|c w IH]; intros H.
  - simpl. pose proof (split_nonempty rest false).
    now destruct (re_split_ws_from false rest).
  - simpl in H. apply andb_true_iff in H as [Hc Hw].
    apply negb_true_iff in Hc.
    change ((c :: w) ++ rest) with (c :: (w ++ rest)).
    rewrite split_cons, Hc, (IH Hw).
    now destruct (re_split_ws_from false rest).
Qed.

Lemma join_pair sep x y (l : list str) :
  join sep (x :: y :: l) = x ++ sep ++ join sep (y :: l).
Proof. reflexivity. Qed.

Lemma join_head (x : str) (l : list str) c r :
  x = c :: r -> exists r', join (py " ") (x :: l) = c :: r'.
Proof.
  intros ->. destruct l; [now exists r|].
  rewrite join_pair. simpl. eauto.
Qed.

Lemma token_head w :
  token_like w -> exists c r, w = c :: r /\ isspace c = false.
Proof.
  intros [NE F]. destruct w as [|c r]; [congruence|].
  simpl in F. apply andb_true_iff in F as [Hc _].
  apply negb_true_iff in Hc. eauto.
Qed.

Lemma token_last w : token_like w -> isspace (last w 0%N) = false.
Proof.
  intros [NE F]. induction w as [|c r IH]; [congruence|].
  simpl in F. apply andb_true_iff in F as [Hc Hr].
  destruct r as [|d r]; [now apply negb_true_iff in Hc|].
  apply IH; [discriminate|exact Hr].
Qed.

Lemma last_append {A} (a b : list A) d : b <> [] -> last (a ++ b) d = last b d.
Proof.
  intros NE. induction a as [|x a IH]; [reflexivity|].
  simpl. rewrite IH. destruct (a ++ b) eqn:E; [|reflexivity].
  apply app_eq_nil in E as [_ E]. congruence.
Qed.

Lemma join_ends (l : list str) :
  l <> [] -> Forall token_like l ->
  join (py " ") l <> []
  /\ isspace (hd 0%N (join (py " ") l)) = false
  /\ isspace (last (join (py " ") l) 0%N) = false.
Proof.
  intros NE F. induction l as [|x l IH]; [congruence|].
  inversion F as [|? ? Hx Hl]; subst.
  destruct (token_head Hx) as (c & r & -> & Hc).
  destruct (join_head (x := c :: r) l eq_refl) as [r' E].
  split; [rewrite E; discriminate|].
  split; [rewrite E; exact Hc|].
  destruct l as [|y l]; [exact (token_last Hx)|].
  rewrite join_pair.
  destruct (IH ltac:(discriminate) Hl) as (N & _ & L).
  rewrite app_assoc, last_append by exact N. exact L.
Qed.

(** Splitting what was joined gives the tokens back. *)
Lemma split_join (l : list str) :
  l <> [] -> Forall token_like l ->
  re_split_ws (join (py " ") l) = l.
Proof.
  unfold re_split_ws. intros NE F. induction l as [|x l IH]; [congruence|].
  inversion F as [|? ? Hx Hl]; subst.
  destruct l as [|y l].
  - simpl. rewrite <- (app_nil_r x) at 1. rewrite split_token by apply Hx.
    simpl. now rewrite app_nil_r.
  - rewrite join_pair, split_token by apply Hx.
    change (py " " ++ join (py " ") (y :: l))
      with (32%N :: join (py " ") (y :: l)).
    rewrite split_cons. change (isspace 32%N) with true. cbv iota.
    rewrite app_nil_r. f_equal.
    specialize (IH ltac:(discriminate) Hl).
    inversion Hl as [|? ? Hy _]; subst.
    destruct (token_head Hy) as (c & r & -> & Hc).
    destruct (join_head (x := c :: r) l eq_refl) as [r' E].
    rewrite E in *. rewrite split_cons, Hc. rewrite split_cons, Hc in IH.
    exact IH.
Qed.

Lemma filter_truthy_tokens (l : list str) :
  Forall token_like l -> filter truthy l = l.
Proof.
  induction 1 as [|x l [NE _] _ IH]; [reflexivity|].
  simpl. destruct x; [congruence|]. simpl. now rewrite IH.
Qed.

(** The word count of joined tokens is their number. *)
Lemma word_count_join (l : list str) :
  l <> [] -> Forall token_like l -> _word_count (join (py " ") l) = length l.
Proof.
  intros NE F. unfold _word_count, split_words.
  destruct (join_ends NE F) as (N & H & L).
  rewrite (strip_clean N H L), (split_join NE F), (filter_truthy_tokens F).
  reflexivity.
Qed.

Lemma join_extends sep (a b : list str) :
  exists c, join sep (a ++ b) = join sep a ++ c.
Proof.
  induction a as [|x a IH].
  - exists (join sep b). reflexivity.
  - destruct a as [|y a].
    + destruct b as [|z b].
      * exists []. simpl. now rewrite app_nil_r.
      * exists (sep ++ join sep (z :: b)). reflexivity.
    + destruct IH as [c E].
      change ((x :: y :: a) ++ b) with (x :: y :: (a ++ b)).
      rewrite !join_pair.
      change (y :: a ++ b) with ((y :: a) ++ b). rewrite E.
      exists c. now rewrite !app_assoc.
Qed.

Lemma firstn_split {A} (l : list A) a b :
  a <= b -> exists r, firstn b l = firstn a l ++ r.
Proof.
  revert a b. induction l as [|x l IH]; intros a b H.
  - exists []. now rewrite !firstn_nil.
  - destruct a as [|a]; [simpl; eauto|].
    destruct b as [|b]; [lia|].
    destruct (IH a b ltac:(lia)) as [r E].
    exists r. simpl. now rewrite E.
Qed.

(** A later split point has a prefix at least as long. *)
Lemma prefix_at_grows tokens a b :
  a <= b -> length (prefix_at tokens a) <= length (prefix_at tokens b).
Proof.
  intros H. unfold prefix_at, rstrip.
  destruct (firstn_split tokens H) as [r ->].
  destruct (join_extends (py " ") (firstn a tokens) r) as [c ->].
  apply rstrip_by_grows.
Qed.

End Tokens.

(** ** Words *)

Section Word_lemmas.
Context {U : UnicodeDB}.

(** Starting in a gap only decides whether an empty first piece is
    listed. *)
Lemma words_gap s :
  filter truthy (re_split_ws_from true s)
  = filter truthy (re_split_ws_from false s).
Proof.
  destruct s as [|c s]; [reflexivity|].
  rewrite !split_cons. now destruct (isspace c).
Qed.

Lemma split_at_space a c b :
  isspace c = true ->
  exists w ws ws',
    re_split_ws_from false (a ++ c :: b) = w :: ws
    /\ re_split_ws_from false a = w :: ws'
    /\ filter truthy ws = filter truthy ws' ++ split_words b.
Proof.
  intros Hc. induction a as [|x a IH].
  - exists [], (re_split_ws_from true b), [].
    cbn [app]. rewrite split_cons, Hc. repeat split. apply words_gap.
  - destruct IH as (w & ws & ws' & E1 & E2 & E3).
    change ((x :: a) ++ c :: b) with (x :: (a ++ c :: b)).
    rewrite !split_cons. destruct (isspace x).
    + exists [], (re_split_ws_from true (a ++ c :: b)), (re_split_ws_from true a).
      repeat split. rewrite !words_gap, E1, E2. cbn [filter].
      destruct (truthy w); cbn [app]; now rewrite E3.
    + rewrite E1, E2. exists (x :: w), ws, ws'. now repeat split.
Qed.

(** The words of two texts joined by a white-space character. *)
Lemma words_app a c b :
  isspace c = true ->
  split_words (a ++ c :: b) = split_words a ++ split_words b.
Proof.
  intros Hc. destruct (split_at_space a c b Hc) as (w & ws & ws' & E1 & E2 & E3).
  unfold split_words at 1 2, re_split_ws. rewrite E1, E2. cbn [filter].
  destruct (truthy w); cbn [app]; now rewrite E3.
Qed.

Lemma words_join a b :
  split_words (a ++ py " " ++ b) = split_words a ++ split_words b.
Proof. exact (words_app a 32%N b eq_refl). Qed.

Lemma words_lstrip s : split_words (drop_while isspace s) = split_words s.
Proof.
  induction s as [|c s IH]; [reflexivity|].
  cbn [drop_while]. destruct (isspace c) eqn:E; [|reflexivity].
  rewrite IH. unfold split_words, re_split_ws.
  rewrite split_cons, E. cbn [filter truthy]. symmetry. apply words_gap.
Qed.

Lemma words_rstrip s : split_words (rstrip_by isspace s) = split_words s.
Proof.
  unfold rstrip_by. rewrite <- (rev_involutive s) at 2.
  induction (rev s) as [|c t IH]; [reflexivity|].
  cbn [drop_while rev]. destruct (isspace c) eqn:E; [|reflexivity].
  rewrite IH, (words_app (rev t) c [] E).
  change (split_words []) with (@nil str). now rewrite app_nil_r.
Qed.

Lemma words_strip s : split_words (strip s) = split_words s.
Proof.
  unfold strip, lstrip_by. now rewrite words_lstrip, words_rstrip.
Qed.

Lemma word_count_words s : _word_count s = length (split_words s).
Proof. unfold _word_count. now rewrite words_strip. Qed.

Lemma word_count_spaced a b :
  _word_count (a ++ py " " ++ b) = _word_count a + _word_count b.
Proof. rewrite !word_count_words, words_join. apply length_app. Qed.

End Word_lemmas.

(** ** One run of post-pass 2 *)

Section Pass2_run.
Context {U : UnicodeDB}.

Lemma merge_trace_pair cur next rest :
  merge_trace (cur :: next :: rest) =
  if mergeable cur next
  then Merged cur next :: merge_trace rest
  else Kept cur :: merge_trace (next :: rest).
Proof. reflexivity. Qed.

Lemma merge_trace_text n : forall l,
  length l <= n -> map item_text (merge_trace l) = merge_titles l.
Proof.
  induction n as [|n IH]; intros [|cur [|next rest]] H; simpl in H;
    try reflexivity; try lia.
  rewrite merge_trace_pair, merge_titles_pair.
  destruct (mergeable cur next); cbn [map item_text]; f_equal;
    apply IH; simpl; lia.
Qed.

Lemma merge_trace_sources n : forall l,
  length l <= n -> concat (map item_sources (merge_trace l)) = l.
Proof.
  induction n as [|n IH]; intros [|cur [|next rest]] H; simpl in H;
    try reflexivity; try lia.
  rewrite merge_trace_pair.
  destruct (mergeable cur next); cbn [map concat item_sources app];
    repeat f_equal; apply IH; simpl; lia.
Qed.

Lemma merge_trace_merged n : forall l,
  length l <= n ->
  forall cur next, In (Merged cur next) (merge_trace l) ->
  mergeable cur next = true.
Proof.
  induction n as [|n IH]; intros l H cur next I.
  - destruct l as [|c l]; [destruct I|simpl in H; lia].
  - destruct l as [|c [|d rest]].
    + destruct I.
    + destruct I as [I|[]]. discriminate I.
    + rewrite merge_trace_pair in I. simpl in H.
      destruct (mergeable c d) eqn:M.
      * destruct I as [I|I].
        -- injection I as <- <-. exact M.
        -- apply (IH rest); [lia|exact I].
      * destruct I as [I|I]; [discriminate I|].
        apply (IH (d :: rest)); [simpl; lia|exact I].
Qed.

(** The part of the merge test that concerns one item. *)
Lemma mergeable_parts cur next :
  mergeable cur next
  = (is_title cur && (_word_count cur <=? 4))
    && (is_title next && (_word_count next <=? 4)).
Proof.
  unfold mergeable, short_pair. rewrite word_count_spaced.
  destruct (is_title cur), (is_title next),
    (Nat.leb_spec (_word_count cur) 4), (Nat.leb_spec (_word_count next) 4);
    cbn [andb]; trivial.
  apply Nat.leb_le. lia.
Qed.

(** An item that was not merged with a neighbour which was merged with its
    own successor can be merged with nothing. *)
Lemma kept_before_merged cur next next' x :
  mergeable cur next = false -> mergeable next next' = true ->
  mergeable cur x = false.
Proof.
  rewrite !mergeable_parts. intros A B.
  apply andb_true_iff in B as [B _]. rewrite B, andb_true_r in A.
  now rewrite A.
Qed.

Lemma merge_trace_head next rest :
  exists it tl,
    merge_trace (next :: rest) = it :: tl
    /\ (it = Kept next
        \/ exists next', it = Merged next next'
                         /\ mergeable next next' = true).
Proof.
  destruct rest as [|next' rest].
  - exists (Kept next), []. split; [reflexivity|now left].
  - rewrite merge_trace_pair. destruct (mergeable next next') eqn:M.
    + exists (Merged next next'), (merge_trace rest).
      split; [reflexivity|right]. now exists next'.
    + exists (Kept next), (merge_trace (next' :: rest)).
      split; [reflexivity|now left].
Qed.

Lemma merge_trace_kept n : forall l,
  length l <= n ->
  forall pre cur it post,
    merge_trace l = pre ++ Kept cur :: it :: post ->
    mergeable cur (item_text it) = false.
Proof.
  induction n as [|n IH]; intros l H pre cur it post E.
  - destruct l as [|c l]; [|simpl in H; lia].
    destruct pre; discriminate E.
  - destruct l as [|c [|d rest]].
    + destruct pre; discriminate E.
    + destruct pre as [|x [|y pre]]; discriminate E.
    + rewrite merge_trace_pair in E. simpl in H.
      destruct (mergeable c d) eqn:M.
      * destruct pre as [|x pre]; [discriminate E|].
        injection E as _ E. apply (IH rest) with pre post; [lia|exact E].
      * destruct pre as [|x pre].
        -- cbn [app] in E. injection E as <- E.
           change (merge_trace (d :: rest) = it :: post) in E.
           destruct (merge_trace_head d rest)
             as (it' & tl & Eh & [->|(d' & -> & Md)]);
             rewrite Eh in E; injection E as <- _.
           ++ exact M.
           ++ exact (@kept_before_merged c d d' _ M Md).
        -- injection E as _ E.
           change (merge_trace (d :: rest) = pre ++ Kept cur :: it :: post) in E.
           apply (IH (d :: rest)) with pre post; [simpl; lia|exact E].
Qed.

(** C4, as amended.  One run of post-pass 2 is a single scan: each
    iteration keeps an item or merges it with its successor, and only
    items that satisfy the merge test are merged.  In the result no item
    that the run kept as it was satisfies the merge test with the item
    after it, so that a pair which still does starts with the product of a
    merge of this run.  The run returns a list unchanged exactly when no
    two neighbours of the list satisfy the merge test. *)
Theorem post_pass2_single_scan (proj : list str) :
  post_pass2 proj = Ok (map item_text (merge_trace proj))
  /\ concat (map item_sources (merge_trace proj)) = proj
  /\ (forall cur next, In (Merged cur next) (merge_trace proj) ->
        mergeable cur next = true)
  /\ (forall pre cur it post,
        merge_trace proj = pre ++ Kept cur :: it :: post ->
        mergeable cur (item_text it) = false)
  /\ (post_pass2 proj = Ok proj <-> has_mergeable_pair proj = false).
Proof.
  split.
  { rewrite post_pass2_ok. f_equal. symmetry.
    apply (@merge_trace_text (length proj)). lia. }
  split; [apply (@merge_trace_sources (length proj)); lia|].
  split; [apply (@merge_trace_merged (length proj)); lia|].
  split; [apply (@merge_trace_kept (length proj)); lia|].
  rewrite post_pass2_ok. split.
  - intros [= E].
    destruct (has_mergeable_pair proj) eqn:P; [|reflexivity].
    pose proof (@merge_titles_shrinks _ (length proj) proj (le_n _) P) as L.
    rewrite E in L. lia.
  - intros P. now rewrite merge_titles_clean.
Qed.

End Pass2_run.

Section Pass2_example.
#[local] Existing Instance ascii_only.

(** C4, as stated, fails: on three one-word titles the first run merges the
    first two, and a second run merges the result with the third. *)
Lemma post_pass2_second_run_merges :
  let proj := map py ["Ab"; "Cd"; "Ef"]%string in
  let once := map py ["Ab Cd"; "Ef"]%string in
  post_pass2 proj = Ok once
  /\ mergeable (py "Ab Cd") (py "Ef") = true
  /\ post_pass2 once = Ok [py "Ab Cd Ef"]
  /\ once <> [py "Ab Cd Ef"].
Proof.
  repeat split; try (vm_compute; reflexivity). discriminate.
Qed.

End Pass2_example.


(** ** The trailing-title splitter *)

Section Splitter.
Context {U : UnicodeDB}.

(** [find] over a range returns its first element that passes. *)
Lemma find_seq (f : nat -> bool) : forall k a,
  match find f (seq a k) with
  | Some x => a <= x < a + k /\ f x = true
              /\ forall y, a <= y < x -> f y = false
  | None => forall y, a <= y < a + k -> f y = false
  end.
Proof.
  induction k as [|k IH]; intros a; simpl; [intros y; lia|].
  destruct (f a) eqn:E.
  - repeat split; trivial; intros; lia.
  - specialize (IH (S a)). destruct (find f (seq (S a) k)) as [x|].
    + destruct IH as (R & Fx & Lo). repeat split; trivial; try lia.
      intros y Hy. destruct (Nat.eq_dec y a) as [->|]; [exact E|].
      apply Lo. lia.
    + intros y Hy. destruct (Nat.eq_dec y a) as [->|]; [exact E|].
      apply IH. lia.
Qed.

(** The window: at most ten trailing tokens, at least two. *)
Lemma candidate_window n s :
  In s (candidate_starts n) <-> n - 10 <= s /\ s + 2 <= n.
Proof. unfold candidate_starts. rewrite in_seq. lia. Qed.

Lemma tokens_of_window text s :
  In s (candidate_starts (length (re_split_ws (strip text)))) ->
  Forall token_like (re_split_ws (strip text)).
Proof.
  intros I. apply candidate_window in I.
  apply tokens_like. intros E. rewrite E, split_empty in I. simpl in I. lia.
Qed.

Lemma skipn_tokens (l : list str) s :
  Forall token_like l -> Forall token_like (skipn s l).
Proof.
  intros F. rewrite <- (firstn_skipn s l) in F.
  now apply Forall_app in F.
Qed.

(** C9.  The splitter never raises; it returns the line itself with no
    title, or a non-empty prefix with a title of at least two
    white-space-separated tokens: the last token alone is never split off,
    whatever [_looks_like_project_title] says of it. *)
Theorem trailing_title_has_two_tokens (text : str) :
  exists main title,
    _split_trailing_title_if_any text = Ok (main, title)
    /\ match title with
       | None => main = text
       | Some t =>
           main <> [] /\ 2 <= _word_count t
           /\ exists start,
                start + 2 <= length (re_split_ws (strip text))
                /\ t = candidate_at (re_split_ws (strip text)) start
       end.
Proof.
  rewrite split_ok. unfold trailing_split, first_split.
  set (tokens := re_split_ws (strip text)).
  destruct (find _ _) as [start|] eqn:E.
  2:{ eexists _, _. split; reflexivity. }
  do 2 eexists. split; [reflexivity|].
  apply find_some in E as [I V].
  pose proof (tokens_of_window text start I) as F.
  apply candidate_window in I. fold tokens in F.
  apply andb_true_iff in V as [P _].
  split; [destruct (prefix_at tokens start); [discriminate|discriminate]|].
  split; [|exists start; split; [lia|reflexivity]].
  unfold candidate_at. rewrite word_count_join.
  - rewrite length_skipn. lia.
  - intros N. apply (f_equal (@length _)) in N.
    rewrite length_skipn in N. simpl in N. lia.
  - now apply skipn_tokens.
Qed.

(** C3, as amended.  When a split point of the window qualifies, the
    splitter returns the qualifying split point with the lowest start
    index: no qualifying one lies before it, its prefix is the shortest
    among the qualifying ones and its title the one with most tokens. *)
Theorem trailing_split_first_match (text : str) (start : nat) :
  let tokens := re_split_ws (strip text) in
  In start (candidate_starts (length tokens)) ->
  valid_split tokens start = true ->
  exists first,
    first <= start
    /\ In first (candidate_starts (length tokens))
    /\ valid_split tokens first = true
    /\ (forall s, In s (candidate_starts (length tokens)) ->
          s < first -> valid_split tokens s = false)
    /\ _split_trailing_title_if_any text
       = Ok (prefix_at tokens first, Some (candidate_at tokens first))
    /\ length (prefix_at tokens first) <= length (prefix_at tokens start)
    /\ _word_count (candidate_at tokens start)
       <= _word_count (candidate_at tokens first).
Proof.
  intros tokens I V.
  rewrite split_ok. unfold trailing_split, first_split. fold tokens.
  pose proof (tokens_of_window text start I) as F. fold tokens in F.
  pose proof I as W. apply candidate_window in W.
  unfold candidate_starts in *.
  pose proof (find_seq (valid_split tokens)
                ((length tokens - 1) - (length tokens - 10))
                (length tokens - 10)) as H.
  destruct (find _ _) as [first|].
  - destruct H as (R & Vf & Lo).
    assert (Le : first <= start).
    { destruct (Nat.le_gt_cases first start) as [|G]; [assumption|].
      rewrite Lo in V by lia. discriminate. }
    exists first. repeat split; trivial.
    + apply in_seq. lia.
    + intros s Hs Hlt. apply in_seq in Hs. apply Lo. lia.
    + now apply prefix_at_grows.
    + unfold candidate_at.
      assert (N : forall s, s + 2 <= length tokens -> skipn s tokens <> []).
      { intros s Hs E. apply (f_equal (@length _)) in E.
        rewrite length_skipn in E. simpl in E. lia. }
      rewrite !word_count_join; try (apply skipn_tokens; assumption);
        try (apply N; lia).
      rewrite !length_skipn. lia.
  - apply in_seq in I. rewrite (H start I) in V. discriminate.
Qed.

End Splitter.

Section Splitter_example.
#[local] Existing Instance ascii_only.

(** C3, as stated, fails: in [x Foo Bar Baz] the split points 1 and 2 both
    qualify; the splitter returns the first, whose prefix [x] is shorter
    than the prefix [x Foo] of the second. *)
Lemma longest_prefix_not_chosen :
  let text := py "x Foo Bar Baz" in
  let tokens := re_split_ws (strip text) in
  In 2 (candidate_starts (length tokens))
  /\ valid_split tokens 2 = true
  /\ prefix_at tokens 2 = py "x Foo"
  /\ _split_trailing_title_if_any text = Ok (py "x", Some (py "Foo Bar Baz"))
  /\ length (py "x") < length (py "x Foo").
Proof.
  repeat split; try (vm_compute; reflexivity).
  - vm_compute. auto.
  - vm_compute. lia.
Qed.

(** The amended C3 at [x Foo Bar Baz] and the split point 2. *)
Lemma trailing_split_first_match_witness :
  let text := py "x Foo Bar Baz" in
  let tokens := re_split_ws (strip text) in
  (In 2 (candidate_starts (length tokens))
   /\ valid_split tokens 2 = true)
  /\ exists first,
       first <= 2
       /\ In first (candidate_starts (length tokens))
       /\ valid_split tokens first = true
       /\ (forall s, In s (candidate_starts (length tokens)) ->
             s < first -> valid_split tokens s = false)
       /\ _split_trailing_title_if_any text
          = Ok (prefix_at tokens first, Some (candidate_at tokens first))
       /\ length (prefix_at tokens first) <= length (prefix_at tokens 2)
       /\ _word_count (candidate_at tokens 2)
          <= _word_count (candidate_at tokens first).
Proof.
  assert (H : In 2 (candidate_starts
                      (length (re_split_ws (strip (py "x Foo Bar Baz")))))
              /\ valid_split (re_split_ws (strip (py "x Foo Bar Baz"))) 2
                 = true).
  { split; [vm_compute; auto|vm_compute; reflexivity]. }
  split; [exact H|].
  exact (@trailing_split_first_match ascii_only (py "x Foo Bar Baz") 2
           (proj1 H) (proj2 H)).
Defined.

End Splitter_example.

(** ** The matcher against the match relation *)

Section Matcher.
Context {U : UnicodeDB}.

Lemma star_loop_sound {A} g a
  (body : option char -> str -> (option char -> str -> option A) -> option A)
  (k : option char -> str -> option A) :
  (forall p s k' x, body p s k' = Some x ->
     exists p' s', matches a p s p' s' /\ k' p' s' = Some x) ->
  forall n p s x, star_loop g body k n p s = Some x ->
    exists p' s', matches (Star g a) p s p' s' /\ k p' s' = Some x.
Proof.
  intros B. induction n as [|n IH]; intros p s x H; simpl in H.
  - exists p, s. split; [constructor|exact H].
  - assert (Again : forall y,
      body p s (fun p' s' =>
        if length s' <? length s then star_loop g body k n p' s' else None)
      = Some y ->
      exists p' s', matches (Star g a) p s p' s' /\ k p' s' = Some y).
    { intros y E. apply B in E as (p1 & s1 & M & E).
      destruct (Nat.ltb_spec (length s1) (length s)) as [L|]; [|discriminate].
      apply IH in E as (p2 & s2 & M2 & E).
      exists p2, s2. split; [|exact E]. econstructor; eassumption. }
    assert (Stop : forall y, k p s = Some y ->
      exists p' s', matches (Star g a) p s p' s' /\ k p' s' = Some y).
    { intros y E. exists p, s. split; [constructor|exact E]. }
    destruct g.
    + destruct (body p s _) eqn:E; [injection H as <-; now apply Again|].
      now apply Stop.
    + destruct (k p s) eqn:E; [injection H as <-; now apply Stop|].
      now apply Again.
Qed.

Lemma exec_sound {A} r : forall p s (k : option char -> str -> option A) x,
  exec r p s k = Some x ->
  exists p' s', matches r p s p' s' /\ k p' s' = Some x.
Proof.
  induction r as [|f|a IHa b IHb|a IHa b IHb|g a IHa| | |];
    intros p s k x H; simpl in H.
  - exists p, s. split; [constructor|exact H].
  - destruct s as [|c s]; [discriminate|].
    destruct (f c) eqn:E; [|discriminate].
    exists (Some c), s. split; [now constructor|exact H].
  - apply IHa in H as (p1 & s1 & M1 & H).
    apply IHb in H as (p2 & s2 & M2 & H).
    exists p2, s2. split; [econstructor; eassumption|exact H].
  - destruct (exec a p s k) eqn:E.
    + injection H as <-. apply IHa in E as (p' & s' & M & E).
      exists p', s'. split; [now apply m_alt_l|exact E].
    + apply IHb in H as (p' & s' & M & H).
      exists p', s'. split; [now apply m_alt_r|exact H].
  - eapply star_loop_sound; [|exact H]. intros. now apply IHa.
  - destruct (at_start p) eqn:E; [|discriminate].
    destruct p; [discriminate|].
    exists None, s. split; [constructor|exact H].
  - destruct (at_end s) eqn:E; [|discriminate].
    exists p, s. split; [now constructor|exact H].
  - destruct (boundary p s) eqn:E; [|discriminate].
    exists p, s. split; [now constructor|exact H].
Qed.

Lemma star_loop_complete {A} g a
  (body : option char -> str -> (option char -> str -> option A) -> option A)
  (k : option char -> str -> option A) :
  (forall p s p' s' k', matches a p s p' s' ->
     (exists x, k' p' s' = Some x) -> exists y, body p s k' = Some y) ->
  forall n p s p' s', matches (Star g a) p s p' s' -> length s <= n ->
    (exists x, k p' s' = Some x) ->
    exists y, star_loop g body k n p s = Some y.
Proof.
  intros B. induction n as [|n IH]; intros p s p' s' M L K.
  - inversion M; subst; [exact K|]. simpl in L. lia.
  - simpl. inversion M; subst.
    + destruct K as [x K]. rewrite K.
      destruct g; [|eauto]. destruct (body p' s' _); eauto.
    + match goal with
      | Ma : matches a p s ?p1 ?s1, Ms : matches (Star g a) ?p1 ?s1 p' s' |- _ =>
          destruct (B p s p1 s1
            (fun q t => if length t <? length s
                        then star_loop g body k n q t else None) Ma)
            as [y E];
          [ destruct (Nat.ltb_spec (length s1) (length s)); [|lia];
            apply (IH p1 s1 p' s' Ms); [lia|exact K] |]
      end.
      rewrite E. destruct g; [eauto|]. destruct (k p s); eauto.
Qed.

Lemma exec_complete {A} r : forall p s p' s' (k : option char -> str -> option A),
  matches r p s p' s' -> (exists x, k p' s' = Some x) ->
  exists y, exec r p s k = Some y.
Proof.
  induction r as [|f|a IHa b IHb|a IHa b IHb|g a IHa| | |];
    intros p s p' s' k M K; simpl.
  - inversion M; subst. exact K.
  - inversion M; subst.
    match goal with H : f _ = true |- _ => rewrite H end. exact K.
  - inversion M; subst. eapply IHa; [eassumption|]. eapply IHb; eassumption.
  - inversion M; subst.
    + destruct (IHa _ _ _ _ k ltac:(eassumption) K) as [y ->]. eauto.
    + destruct (exec a p s k); [eauto|]. eapply IHb; eassumption.
  - eapply star_loop_complete; [|exact M|lia|exact K].
    intros. eapply IHa; eassumption.
  - inversion M; subst. exact K.
  - inversion M; subst.
    match goal with H : at_end _ = true |- _ => rewrite H end. exact K.
  - inversion M; subst.
    match goal with H : boundary _ _ = true |- _ => rewrite H end. exact K.
Qed.

(** [r.match(s)] finds something exactly when [r] matches at the start. *)
Lemma found_match r s :
  found (re_match r s) = true <-> exists p' s', matches r None s p' s'.
Proof.
  unfold re_match, match_here. split.
  - destruct (exec r None s _) eqn:E; [|discriminate]. intros _.
    apply exec_sound in E as (p' & s' & M & _). eauto.
  - intros (p' & s' & M).
    eapply exec_complete in M as [y ->]; [reflexivity|]. eauto.
Qed.

(** What a match leaves is a suffix of where it started. *)
Lemma matches_suffix r p s p' s' :
  matches r p s p' s' -> exists d, s = d ++ s'.
Proof.
  induction 1;
    try (exists []; reflexivity);
    try assumption.
  - exists [c]. reflexivity.
  - destruct IHmatches1 as [d1 ->], IHmatches2 as [d2 ->].
    exists (d1 ++ d2). now rewrite app_assoc.
  - destruct IHmatches1 as [d1 ->], IHmatches2 as [d2 ->].
    exists (d1 ++ d2). now rewrite app_assoc.
Qed.

(** A match without anchors does not look at what follows it. *)
Lemma matches_frame r p s p' s' t :
  matches r p s p' s' -> anchor_free r = true ->
  matches r p (s ++ t) p' (s' ++ t).
Proof.
  induction 1; simpl; intros F; try discriminate.
  - constructor.
  - now constructor.
  - apply andb_true_iff in F as [Fa Fb]. econstructor; eauto.
  - apply andb_true_iff in F as [Fa Fb]. apply m_alt_l; auto.
  - apply andb_true_iff in F as [Fa Fb]. apply m_alt_r; auto.
  - constructor.
  - eapply m_star_step; [now apply IHmatches1| |now apply IHmatches2].
    rewrite !length_app. lia.
Qed.

(** A star over a class takes any run of the class. *)
Lemma star_class_run g f d : forall p t,
  forallb f d = true ->
  exists p', matches (Star g (Cls f)) p (d ++ t) p' t.
Proof.
  induction d as [|c d IH]; intros p t H.
  - exists p. constructor.
  - simpl in H. apply andb_true_iff in H as [Hc Hd].
    destruct (IH (Some c) t Hd) as [p' M].
    exists p'. simpl.
    eapply m_star_step; [apply m_cls; exact Hc|simpl; lia|exact M].
Qed.

Lemma star_class_inv g f p s p' s' :
  matches (Star g (Cls f)) p s p' s' ->
  exists d, s = d ++ s' /\ forallb f d = true.
Proof.
  remember (Star g (Cls f)) as r eqn:R.
  induction 1; try discriminate.
  - exists []. split; reflexivity.
  - injection R as -> ->. specialize (IHmatches2 eq_refl).
    destruct IHmatches2 as (d & -> & Hd).
    match goal with M : matches (Cls f) _ _ _ _ |- _ => inversion M; subst end.
    exists (c :: d). split; [reflexivity|]. simpl.
    match goal with H : f c = true |- _ => now rewrite H end.
Qed.

End Matcher.

(** ** A line joined onto the experience header *)

Section Header_entry.
Context {U : UnicodeDB}.

Lemma rstrip_clean h : isspace (last h 0%N) = false -> rstrip h = h.
Proof.
  intros L. unfold rstrip, rstrip_by.
  destruct h as [|c h] using rev_ind; [reflexivity|].
  rewrite last_last in L. rewrite rev_app_distr. simpl. rewrite L.
  simpl. now rewrite rev_involutive.
Qed.

Lemma at_end_cases s : at_end s = true -> s = [] \/ s = [10%N].
Proof.
  destruct s as [|c [|d s]]; simpl; intros H; try discriminate; auto.
  apply N.eqb_eq in H. subst. now right.
Qed.

(** The parts of a header match: leading white space, the vocabulary, a
    word boundary, and the rest of the line. *)
Lemma header_parts alts h p' s' :
  matches (header_re alts) None h p' s' ->
  exists p2 s2 p3 s3,
    matches (Star true Space) None h p2 s2
    /\ matches (Alts alts) p2 s2 p3 s3
    /\ boundary p3 s3 = true
    /\ matches (Star true Dot) p3 s3 p' s'
    /\ at_end s' = true.
Proof.
  unfold header_re, Seqs. cbn [fold_right]. intros M.
  repeat match goal with
  | H : matches (Seq _ _) _ _ _ _ |- _ => inversion H; subst; clear H
  | H : matches Bol _ _ _ _ |- _ => inversion H; subst; clear H
  | H : matches Eol _ _ _ _ |- _ => inversion H; subst; clear H
  | H : matches WordB _ _ _ _ |- _ => inversion H; subst; clear H
  | H : matches Eps _ _ _ _ |- _ => inversion H; subst; clear H
  end.
  eauto 10.
Qed.

(** A header entry that does not end in white space still matches its
    header pattern after a space and a text without line feed. *)
Lemma header_extends alts h text :
  anchor_free (Alts alts) = true ->
  isspace (last h 0%N) = false ->
  no_line_feed text = true ->
  found (re_match (header_re alts) h) = true ->
  found (re_match (header_re alts) (h ++ py " " ++ text)) = true.
Proof.
  intros AF HL NL H.
  apply found_match in H as (p' & s' & M). apply found_match.
  apply header_parts in M as (p2 & s2 & p3 & s3 & Msp & Malt & B & Mdot & E).
  set (T := py " " ++ text).
  destruct (matches_suffix Msp) as [d0 Eh].
  destruct (matches_suffix Malt) as [d1 E2].
  destruct (star_class_inv Mdot) as (d & E4 & Hd).
  assert (E5 : s' = []).
  { destruct (at_end_cases _ E) as [|E5]; [assumption|exfalso].
    rewrite Eh, E2, E4, E5, !app_assoc, last_last in HL. discriminate HL. }
  rewrite E5, app_nil_r in E4.
  assert (Hrun : forallb (fun c => negb (N.eqb c 10%N)) (d ++ T) = true).
  { rewrite forallb_app. apply andb_true_iff. split; [exact Hd|exact NL]. }
  destruct (star_class_run true _ (d ++ T) p3 [] Hrun) as [q Mrun].
  rewrite app_nil_r, <- E4 in Mrun.
  exists q, [].
  unfold header_re, Seqs. cbn [fold_right].
  eapply m_seq; [constructor|].
  eapply m_seq; [apply (matches_frame T Msp); reflexivity|].
  eapply m_seq; [apply (matches_frame T Malt); exact AF|].
  eapply m_seq.
  { constructor. unfold boundary in *.
    destruct s3 as [|c s3]; [|exact B].
    simpl in B. simpl. rewrite xorb_false_r in *. exact B. }
  eapply m_seq; [exact Mrun|].
  eapply m_seq; [now constructor|constructor].
Qed.


End Header_entry.

Section Header_entry_example.
#[local] Existing Instance ascii_only.



End Header_entry_example.

(** * Further properties of the engine *)

(** ** What the merge pass sees *)

Section Merge_input.
Context {U : UnicodeDB}.

Lemma strip_idem raw : strip (strip raw) = strip raw.
Proof.
  destruct (strip raw) as [|c r] eqn:E; [reflexivity|].
  rewrite <- E. destruct (strip_ends raw) as [L H].
  apply strip_clean; trivial. rewrite E. discriminate.
Qed.

Lemma merge_step_blank st raw : strip raw = [] -> merge_step st raw = Ok st.
Proof.
  intros E. unfold merge_step. destruct st as [merged sec].
  destruct (truthy raw); [|reflexivity]. now rewrite E.
Qed.

Lemma merge_step_strip st raw : merge_step st raw = merge_step st (strip raw).
Proof.
  destruct (strip raw) as [|c r] eqn:E.
  - rewrite (merge_step_blank st raw E). now destruct st.
  - unfold merge_step. destruct st as [merged sec].
    rewrite <- E, strip_idem.
    assert (T : truthy raw = true) by (apply strip_nonempty; now rewrite E).
    rewrite T, E. reflexivity.
Qed.

Lemma merge_from_stripped lines : forall st,
  for_each merge_step lines st
  = for_each merge_step (filter truthy (map strip lines)) st.
Proof.
  induction lines as [|raw lines IH]; intros st; [reflexivity|].
  cbn [map filter for_each].
  destruct (truthy (strip raw)) eqn:T.
  - cbn [for_each]. rewrite <- merge_step_strip.
    destruct (merge_step st raw); [apply IH|reflexivity].
  - assert (E : strip raw = []) by (destruct (strip raw); [reflexivity|discriminate]).
    rewrite (merge_step_blank st raw E). apply IH.
Qed.

(** X1.  The engine sees a line only stripped, and not at all when nothing
    is left of it: its result on a list of lines is its result on the
    stripped lines that are not empty. *)
Theorem split_and_merge_on_stripped (lines : list str) :
  split_and_merge lines = split_and_merge (filter truthy (map strip lines)).
Proof.
  unfold split_and_merge, merge_pass. now rewrite merge_from_stripped.
Qed.

Lemma merge_step_idle merged raw :
  found (re_match EXPERIENCE_HEADERS (strip raw)) = false ->
  found (re_match PROJECTS_HEADERS (strip raw)) = false ->
  merge_step (merged, None) raw
  = Ok (merged ++ filter truthy [strip raw], None).
Proof.
  intros H1 H2. destruct (strip raw) as [|c r] eqn:E.
  - rewrite merge_step_blank by exact E. simpl. now rewrite app_nil_r.
  - unfold merge_step.
    assert (T : truthy raw = true) by (apply strip_nonempty; now rewrite E).
    rewrite T, E in *. cbn [truthy negb filter]. rewrite H1, H2.
    destruct (found (re_match OTHER_HEADERS (c :: r))); [reflexivity|].
    destruct (_is_bullet (c :: r)); reflexivity.
Qed.

Lemma split_step_idle line :
  found (re_match EXPERIENCE_HEADERS line) = false ->
  found (re_match PROJECTS_HEADERS line) = false ->
  split_step (None, [], []) line = (None, [], []).
Proof.
  intros H1 H2. unfold split_step. rewrite H1, H2.
  now destruct (found (re_match OTHER_HEADERS line)).
Qed.

(** X2.  Without an Experience or a Projects header line nothing is
    recognised: when no stripped line of the input matches either header
    pattern, both output lists are empty, whatever the lines are. *)
Theorem no_section_no_output (lines : list str) :
  (forall raw, In raw lines ->
     found (re_match EXPERIENCE_HEADERS (strip raw)) = false
     /\ found (re_match PROJECTS_HEADERS (strip raw)) = false) ->
  split_and_merge lines = Ok ([], []).
Proof.
  intros H.
  assert (M : forall merged,
    (forall e, In e merged ->
       found (re_match EXPERIENCE_HEADERS e) = false
       /\ found (re_match PROJECTS_HEADERS e) = false) ->
    exists merged',
      for_each merge_step lines (merged, None) = Ok (merged', None)
      /\ forall e, In e merged' ->
           found (re_match EXPERIENCE_HEADERS e) = false
           /\ found (re_match PROJECTS_HEADERS e) = false).
  { induction lines as [|raw lines IH]; intros merged Hm; [simpl; eauto|].
    cbn [for_each].
    destruct (H raw (or_introl eq_refl)) as [H1 H2].
    rewrite (merge_step_idle merged raw H1 H2). cbn [bind].
    apply IH; [intros r I; apply H; now right|].
    intros e I. apply in_app_or in I as [I|I]; [now apply Hm|].
    simpl in I. destruct (truthy (strip raw)); [|contradiction].
    destruct I as [<-|[]]. now split. }
  destruct (M [] ltac:(intros e [])) as (merged & E & Hm).
  unfold split_and_merge, merge_pass. rewrite E. cbn [bind].
  assert (S : fold_left split_step merged (None, [], []) = (None, [], [])).
  { clear E. induction merged as [|e merged IH]; [reflexivity|].
    cbn [fold_left]. destruct (Hm e (or_introl eq_refl)) as [H1 H2].
    rewrite (split_step_idle e H1 H2). apply IH.
    intros x I. apply Hm. now right. }
  unfold section_split. rewrite S. reflexivity.
Qed.

(** X3.  A line of at most two tokens is never split: the only split point
    of its window leaves an empty prefix. *)
Theorem short_line_not_split (text : str) :
  length (re_split_ws (strip text)) <= 2 ->
  _split_trailing_title_if_any text = Ok (text, None).
Proof.
  intros H. rewrite split_ok. unfold trailing_split, first_split.
  destruct (length (re_split_ws (strip text))) as [|[|[|n]]];
    try reflexivity; lia.
Qed.

End Merge_input.

Section Merge_input_example.
#[local] Existing Instance ascii_only.

(** X2 at the lines [Education], [BS Computer Science]. *)
Lemma no_section_no_output_witness :
  let lines := map py ["Education"; "BS Computer Science"]%string in
  (forall raw, In raw lines ->
     found (re_match EXPERIENCE_HEADERS (strip raw)) = false
     /\ found (re_match PROJECTS_HEADERS (strip raw)) = false)
  /\ split_and_merge lines = Ok ([], []).
Proof.
  assert (H : forall raw,
    In raw (map py ["Education"; "BS Computer Science"]%string) ->
    found (re_match EXPERIENCE_HEADERS (strip raw)) = false
    /\ found (re_match PROJECTS_HEADERS (strip raw)) = false).
  { intros raw [<-|[<-|[]]]; split; vm_compute; reflexivity. }
  split; [exact H|].
  exact (@no_section_no_output ascii_only _ H).
Defined.

(** X3 at the line [Real-Time Monitor]. *)
Lemma short_line_not_split_witness :
  length (re_split_ws (strip (py "Real-Time Monitor"))) <= 2
  /\ _split_trailing_title_if_any (py "Real-Time Monitor")
     = Ok (py "Real-Time Monitor", None).
Proof.
  assert (H : length (re_split_ws (strip (py "Real-Time Monitor"))) <= 2).
  { vm_compute. lia. }
  split; [exact H|].
  exact (@short_line_not_split ascii_only (py "Real-Time Monitor") H).
Defined.

End Merge_input_example.

(** ** Words are conserved *)

Section Words.
Context {U : UnicodeDB}.

(** X4.  Words add up: the word count of two texts joined by a space is
    the sum of their word counts; so the third test of post-pass 2, on the
    joined text, never fails when the two tests on the parts hold. *)
Theorem word_count_additive (cur next : str) :
  _word_count (cur ++ py " " ++ next) = _word_count cur + _word_count next
  /\ short_pair cur next
     = (_word_count cur <=? 4) && (_word_count next <=? 4).
Proof.
  assert (A : _word_count (cur ++ py " " ++ next)
              = _word_count cur + _word_count next).
  { rewrite !word_count_words, words_join. apply length_app. }
  split; [exact A|].
  unfold short_pair. rewrite A.
  destruct (Nat.leb_spec (_word_count cur) 4),
    (Nat.leb_spec (_word_count next) 4); cbn [andb]; trivial.
  apply Nat.leb_le. lia.
Qed.

Lemma all_words_app a b : all_words (a ++ b) = all_words a ++ all_words b.
Proof. unfold all_words. now rewrite map_app, concat_app. Qed.

Lemma firstn_tokens (l : list str) s :
  Forall token_like l -> Forall token_like (firstn s l).
Proof.
  intros F. rewrite <- (firstn_skipn s l) in F.
  now apply Forall_app in F.
Qed.

Lemma words_of_tokens (l : list str) :
  l <> [] -> Forall token_like l -> split_words (join (py " ") l) = l.
Proof.
  intros NE F. unfold split_words.
  now rewrite (split_join NE F), (filter_truthy_tokens F).
Qed.

(** The two parts of a split, as token lists. *)
Lemma split_parts text start :
  let tokens := re_split_ws (strip text) in
  In start (candidate_starts (length tokens)) ->
  valid_split tokens start = true ->
  split_words (prefix_at tokens start) = firstn start tokens
  /\ split_words (candidate_at tokens start) = skipn start tokens
  /\ candidate_at tokens start <> []
  /\ split_words text = tokens.
Proof.
  intros tokens I V.
  pose proof (tokens_of_window text start I) as F. fold tokens in F.
  apply candidate_window in I.
  apply andb_true_iff in V as [P _].
  assert (S0 : start <> 0).
  { intros ->. unfold prefix_at in P. discriminate P. }
  assert (N1 : firstn start tokens <> []).
  { intros E. apply (f_equal (@length _)) in E.
    rewrite length_firstn in E. simpl in E. lia. }
  assert (N2 : skipn start tokens <> []).
  { intros E. apply (f_equal (@length _)) in E.
    rewrite length_skipn in E. simpl in E. lia. }
  repeat split.
  - unfold prefix_at, rstrip. rewrite words_rstrip.
    apply words_of_tokens; [exact N1|now apply firstn_tokens].
  - apply words_of_tokens; [exact N2|now apply skipn_tokens].
  - apply (join_ends N2). now apply skipn_tokens.
  - rewrite <- words_strip. unfold split_words. fold tokens.
    now apply filter_truthy_tokens.
Qed.

(** X5.  The splitter loses no word and changes none: the words of the
    prefix followed by the words of the title are the words of the line,
    and the word counts add up. *)
Theorem trailing_split_keeps_words (text : str) :
  exists main title,
    _split_trailing_title_if_any text = Ok (main, title)
    /\ match title with
       | None => main = text
       | Some t =>
           split_words main ++ split_words t = split_words text
           /\ _word_count main + _word_count t = _word_count text
       end.
Proof.
  rewrite split_ok. unfold trailing_split, first_split.
  destruct (find _ _) as [start|] eqn:E.
  2:{ eexists _, _. split; reflexivity. }
  do 2 eexists. split; [reflexivity|].
  apply find_some in E as [I V].
  destruct (split_parts text start I V) as (P & C & _ & T).
  assert (W : split_words (prefix_at (re_split_ws (strip text)) start)
              ++ split_words (candidate_at (re_split_ws (strip text)) start)
              = split_words text).
  { now rewrite P, C, firstn_skipn, T. }
  split; [exact W|].
  rewrite !word_count_words, <- W. symmetry. apply length_app.
Qed.

Lemma split_item_words item : all_words (split_item item) = split_words item.
Proof.
  unfold split_item, trailing_split, first_split.
  destruct (find _ _) as [start|] eqn:E.
  2:{ unfold all_words. simpl. apply app_nil_r. }
  apply find_some in E as [I V].
  destruct (split_parts item start I V) as (P & C & N & T).
  unfold split_items.
  rewrite (truthy_nonempty N). unfold all_words. cbn [map concat].
  now rewrite P, C, app_nil_r, firstn_skipn, T.
Qed.

(** Post-pass 1 maps every item to its one or two parts. *)
Lemma post_pass1_from_value proj : forall fixed,
  for_each
    (fun fixed item =>
       ' (main, maybe_title) <- _split_trailing_title_if_any item ;;
       Ok (fixed ++ split_items main maybe_title)) proj fixed
  = Ok (fixed ++ concat (map split_item proj)).
Proof.
  induction proj as [|item proj IH]; intros fixed.
  - simpl. now rewrite app_nil_r.
  - cbn [for_each]. rewrite split_ok. cbn [bind].
    unfold split_item at 1. cbn [map concat].
    destruct (trailing_split item) as [main t]. cbn [bind].
    rewrite IH. now rewrite app_assoc.
Qed.

Lemma post_pass1_value proj : post_pass1 proj = Ok (concat (map split_item proj)).
Proof. unfold post_pass1. now rewrite post_pass1_from_value. Qed.

Lemma post_pass1_words proj :
  all_words (concat (map split_item proj)) = all_words proj.
Proof.
  induction proj as [|item proj IH]; [reflexivity|].
  cbn [map concat]. rewrite all_words_app, split_item_words, IH.
  reflexivity.
Qed.

Lemma merge_titles_words n : forall l,
  length l <= n -> all_words (merge_titles l) = all_words l.
Proof.
  induction n as [|n IH]; intros [|cur [|next rest]] H;
    try reflexivity; [simpl in H; lia|].
  rewrite merge_titles_pair. simpl in H.
  destruct (mergeable cur next).
  - unfold all_words at 1 2. cbn [map concat].
    fold (all_words (merge_titles rest)). fold (all_words rest).
    rewrite (IH rest) by lia.
    rewrite words_strip, words_join.
    now rewrite app_assoc.
  - unfold all_words at 1 2. cbn [map concat].
    fold (all_words (merge_titles (next :: rest))).
    rewrite (IH (next :: rest)) by (simpl; lia). reflexivity.
Qed.

(** X6.  Post-passes 1 and 2 keep the words of the projects list: after
    either pass the words of the items, read in order, are the words of
    the items before the passes; only the cuts between items move. *)
Theorem repair_keeps_words (proj : list str) :
  exists p1 p2,
    post_pass1 proj = Ok p1
    /\ post_pass2 p1 = Ok p2
    /\ all_words p1 = all_words proj
    /\ all_words p2 = all_words proj.
Proof.
  exists (concat (map split_item proj)),
         (merge_titles (concat (map split_item proj))).
  repeat split.
  - apply post_pass1_value.
  - apply post_pass2_ok.
  - apply post_pass1_words.
  - rewrite (merge_titles_words (n := length (concat (map split_item proj))))
      by apply le_n.
    apply post_pass1_words.
Qed.

End Words.

(** ** How many items the repair passes leave *)

Section Counts.
Context {U : UnicodeDB}.

Lemma split_item_length item :
  1 <= length (split_item item) /\ length (split_item item) <= 2.
Proof.
  unfold split_item, split_items.
  destruct (trailing_split item) as [main [t|]]; [destruct (truthy t)|];
    simpl; lia.
Qed.

Lemma split_all_length proj :
  length proj <= length (concat (map split_item proj))
  /\ length (concat (map split_item proj)) <= 2 * length proj.
Proof.
  induction proj as [|item proj IH]; [simpl; lia|].
  cbn [map concat]. rewrite length_app.
  pose proof (split_item_length item). simpl. lia.
Qed.

Lemma merge_titles_half n : forall l,
  length l <= n -> length l <= 2 * length (merge_titles l).
Proof.
  induction n as [|n IH]; intros [|cur [|next rest]] H; simpl in *; try lia.
  destruct (mergeable cur next); simpl.
  - specialize (IH rest). lia.
  - specialize (IH (next :: rest)). simpl in IH. lia.
Qed.

Lemma post_pass3_loop_length fuel : forall proj i acc,
  length proj - i <= fuel ->
  exists r, post_pass3_loop fuel proj i acc = Ok r
            /\ length r = length acc + (length proj - i).
Proof.
  induction fuel as [|fuel IH]; intros proj i acc Hf.
  - cbn [post_pass3_loop].
    destruct (i <? length proj) eqn:E; cbn [negb].
    + apply Nat.ltb_lt in E. lia.
    + apply Nat.ltb_ge in E. exists acc. split; [reflexivity|lia].
  - cbn [post_pass3_loop].
    destruct (i <? length proj) eqn:E; cbn [negb].
    2:{ apply Nat.ltb_ge in E. exists acc. split; [reflexivity|lia]. }
    apply Nat.ltb_lt in E.
    destruct (index_ok proj E) as (item & -> & _). cbn [bind].
    assert (Keep : forall p, length p = length proj ->
      exists r, post_pass3_loop fuel p (i + 1) (acc ++ [item]) = Ok r
                /\ length r = length acc + (length proj - i)).
    { intros p Lp. destruct (IH p (i + 1) (acc ++ [item])) as (r & -> & Lr);
        [lia|].
      exists r. split; [reflexivity|]. rewrite Lr, length_app. simpl. lia. }
    destruct (i + 1 <? length proj) eqn:E1.
    + apply Nat.ltb_lt in E1.
      destruct (index_ok proj E1) as (next & -> & _). cbn [bind].
      rewrite title_ok, !and_then_ok. cbn [bind andb].
      destruct (if _is_bullet item && is_title next then rescue item else None)
        as [[trimmed frag]|]; [|now apply Keep].
      destruct (set_index_ok proj (strip (frag ++ py " " ++ next)) E1)
        as (proj' & -> & L).
      cbn [bind].
      destruct (IH proj' (i + 1) (acc ++ [trimmed])) as (r & -> & Lr); [lia|].
      exists r. split; [reflexivity|]. rewrite Lr, length_app, L. simpl. lia.
    + cbn [and_then bind]. now apply Keep.
Qed.

(** X7.  Post-pass 3 always returns, and it returns as many items as it
    was given: each iteration appends one item, the rescue included, which
    rewrites the next item in place. *)
Theorem post_pass3_keeps_count (proj : list str) :
  exists r, post_pass3 proj = Ok r /\ length r = length proj.
Proof.
  destruct (@post_pass3_loop_length (length proj) proj 0 []) as (r & E & L);
    [lia|].
  exists r. split; [exact E|]. simpl in L. lia.
Qed.

Lemma post_pass3_loop_idle fuel : forall proj i acc,
  (forall item, In item proj -> _is_bullet item = false) ->
  length proj - i <= fuel ->
  post_pass3_loop fuel proj i acc = Ok (acc ++ skipn i proj).
Proof.
  induction fuel as [|fuel IH]; intros proj i acc NB Hf.
  - cbn [post_pass3_loop].
    destruct (i <? length proj) eqn:E; cbn [negb].
    + apply Nat.ltb_lt in E. lia.
    + apply Nat.ltb_ge in E. rewrite skipn_all2 by lia. now rewrite app_nil_r.
  - cbn [post_pass3_loop].
    destruct (i <? length proj) eqn:E; cbn [negb].
    2:{ apply Nat.ltb_ge in E. rewrite skipn_all2 by lia. now rewrite app_nil_r. }
    apply Nat.ltb_lt in E.
    destruct (index_ok proj E) as (item & -> & Hitem). cbn [bind].
    rewrite (NB item (nth_error_In _ _ Hitem)).
    replace (and_then (Ok (i + 1 <? length proj))
               (and_then (Ok false)
                  (next <- index proj (i + 1);; _looks_like_project_title next)))
      with (@Ok bool false) by (now destruct (i + 1 <? length proj)).
    cbn [bind]. rewrite IH by (trivial; lia).
    rewrite (skipn_nth _ _ Hitem), <- app_assoc.
    replace (i + 1) with (S i) by lia. reflexivity.
Qed.

(** X8.  Post-pass 3 only acts on bullets: it returns a list without
    bullet items as it is. *)
Theorem post_pass3_without_bullets (proj : list str) :
  (forall item, In item proj -> _is_bullet item = false) ->
  post_pass3 proj = Ok proj.
Proof.
  intros NB. unfold post_pass3.
  rewrite post_pass3_loop_idle by (trivial; lia). reflexivity.
Qed.

(** X9.  The repair passes split an item in at most two and merge at most
    two into one: the repaired list has at least half and at most twice as
    many items as the list it was given. *)
Theorem repair_item_count (proj : list str) :
  exists r,
    repair proj = Ok r
    /\ length proj <= 2 * length r
    /\ length r <= 2 * length proj.
Proof.
  unfold repair. rewrite post_pass1_value. cbn [bind].
  rewrite post_pass2_ok. cbn [bind].
  set (p1 := concat (map split_item proj)).
  destruct (@post_pass3_loop_length (length (merge_titles p1))
              (merge_titles p1) 0 []) as (r & E & L); [lia|].
  unfold post_pass3. rewrite E.
  exists r. split; [reflexivity|]. rewrite L. cbn [length Nat.add].
  rewrite Nat.sub_0_r.
  pose proof (split_all_length proj) as [A B]. fold p1 in A, B.
  pose proof (@merge_titles_half (length p1) p1 (le_n _)).
  pose proof (@merge_titles_length _ (length p1) p1 (le_n _)).
  lia.
Qed.

End Counts.

Section Counts_example.
#[local] Existing Instance ascii_only.

(** X8 at a list of two titles. *)
Lemma post_pass3_without_bullets_witness :
  let proj := map py ["Analytics Suite"; "Real-Time Monitor"]%string in
  (forall item, In item proj -> _is_bullet item = false)
  /\ post_pass3 proj = Ok proj.
Proof.
  assert (H : forall item,
    In item (map py ["Analytics Suite"; "Real-Time Monitor"]%string) ->
    _is_bullet item = false).
  { intros item [<-|[<-|[]]]; vm_compute; reflexivity. }
  split; [exact H|].
  exact (@post_pass3_without_bullets ascii_only _ H).
Defined.

End Counts_example.

(** ** The section splitter keeps the order *)

Section Order.
Context {U : UnicodeDB}.

Lemma subseq_snoc_skip {A} (l1 l2 : list A) x :
  subseq l1 l2 -> subseq l1 (l2 ++ [x]).
Proof.
  induction 1; simpl.
  - apply subseq_skip. constructor.
  - now apply subseq_skip.
  - now apply subseq_take.
Qed.

Lemma subseq_snoc_take {A} (l1 l2 : list A) x :
  subseq l1 l2 -> subseq (l1 ++ [x]) (l2 ++ [x]).
Proof.
  induction 1; simpl.
  - apply subseq_take. constructor.
  - now apply subseq_skip.
  - now apply subseq_take.
Qed.

Lemma subseq_in {A} (l1 l2 : list A) x : subseq l1 l2 -> In x l1 -> In x l2.
Proof.
  induction 1; simpl; intros I; auto.
  destruct I as [->|I]; auto.
Qed.

Lemma filter_snoc {A} (f : A -> bool) l x :
  filter f (l ++ [x]) = filter f l ++ (if f x then [x] else []).
Proof. rewrite filter_app. reflexivity. Qed.

Lemma split_fold_order merged : forall seen b,
  subseq (snd (fst b)) seen -> subseq (snd b) seen ->
  length (snd (fst b)) + length (snd b)
    <= length (filter (fun e => negb (is_header e)) seen) ->
  let b' := fold_left split_step merged b in
  subseq (snd (fst b')) (seen ++ merged)
  /\ subseq (snd b') (seen ++ merged)
  /\ length (snd (fst b')) + length (snd b')
     <= length (filter (fun e => negb (is_header e)) (seen ++ merged)).
Proof.
  induction merged as [|line merged IH]; intros seen b He Hp Hn.
  - simpl. rewrite app_nil_r. auto.
  - cbn [fold_left].
    replace (seen ++ line :: merged) with ((seen ++ [line]) ++ merged)
      by (now rewrite <- app_assoc).
    destruct b as [[cur e] p]. simpl in He, Hp, Hn.
    assert (Skip : forall c : option section,
      let b' := fold_left split_step merged (c, e, p) in
      subseq (snd (fst b')) ((seen ++ [line]) ++ merged)
      /\ subseq (snd b') ((seen ++ [line]) ++ merged)
      /\ length (snd (fst b')) + length (snd b')
         <= length (filter (fun e => negb (is_header e))
                      ((seen ++ [line]) ++ merged))).
    { intros c. apply IH; simpl; try now apply subseq_snoc_skip.
      rewrite filter_snoc, length_app. lia. }
    unfold split_step.
    destruct (found (re_match EXPERIENCE_HEADERS line)) eqn:E1;
      [apply Skip|].
    destruct (found (re_match PROJECTS_HEADERS line)) eqn:E2;
      [apply Skip|].
    destruct (found (re_match OTHER_HEADERS line)) eqn:E3;
      [apply Skip|].
    assert (H : is_header line = false).
    { unfold is_header. now rewrite E1, E2, E3. }
    destruct cur as [[|]|]; [| |apply Skip].
    + apply IH; simpl.
      * now apply subseq_snoc_take.
      * now apply subseq_snoc_skip.
      * rewrite filter_snoc, H, !length_app. simpl. lia.
    + apply IH; simpl.
      * now apply subseq_snoc_skip.
      * now apply subseq_snoc_take.
      * rewrite filter_snoc, H, !length_app. simpl. lia.
Qed.

Lemma section_split_subseq (merged : list str) :
  subseq (fst (section_split merged)) merged
  /\ subseq (snd (section_split merged)) merged
  /\ length (fst (section_split merged)) + length (snd (section_split merged))
     <= length (filter (fun e => negb (is_header e)) merged).
Proof.
  unfold section_split.
  pose proof (@split_fold_order merged [] (None, [], [])
                (subseq_nil (A := str)) (subseq_nil (A := str)) (le_n _)) as H.
  simpl in H.
  destruct (fold_left split_step merged (None, [], [])) as [[c e] p].
  exact H.
Qed.

(** X10.  The section splitter keeps the document order and uses an entry
    at most once: each of the two lists is the merged entries with some
    left out, in the same order, and together they hold no more items than
    there are entries that match no header pattern. *)
Theorem section_split_order (merged : list str) :
  subseq (fst (section_split merged)) merged
  /\ subseq (snd (section_split merged)) merged
  /\ length (fst (section_split merged)) + length (snd (section_split merged))
     <= length (filter (fun e => negb (is_header e)) merged).
Proof. exact (section_split_subseq merged). Qed.

End Order.

(** ** Entries are never empty *)

Section Clean.
Context {U : UnicodeDB}.

Lemma clean_strip raw : strip raw <> [] -> clean_entry (strip raw).
Proof.
  intros NE. destruct (strip_ends raw) as [L H]. now repeat split.
Qed.

Lemma clean_is_stripped e : clean_entry e -> strip e = e.
Proof. intros (NE & H & L). now apply strip_clean. Qed.

Lemma clean_tokens (l : list str) :
  l <> [] -> Forall token_like l -> clean_entry (join (py " ") l).
Proof. intros NE F. exact (join_ends NE F). Qed.

Lemma clean_join a x :
  clean_entry a -> clean_entry x -> clean_entry (rstrip a ++ py " " ++ x).
Proof.
  intros (Na & Ha & La) (Nx & Hx & Lx).
  rewrite (rstrip_clean a La).
  destruct a as [|c a]; [congruence|].
  repeat split; [discriminate|exact Ha|].
  rewrite last_append by discriminate.
  change (py " " ++ x) with (32%N :: x).
  destruct x as [|d x]; [congruence|exact Lx].
Qed.

Lemma trailing_split_clean text :
  match trailing_split text with
  | (main, Some t) => clean_entry main /\ clean_entry t
  | (main, None) => main = text
  end.
Proof.
  unfold trailing_split, first_split.
  destruct (find _ _) as [start|] eqn:E; [|reflexivity].
  apply find_some in E as [I V].
  pose proof (tokens_of_window text start I) as F.
  apply candidate_window in I.
  apply andb_true_iff in V as [P _].
  set (tokens := re_split_ws (strip text)) in *.
  assert (S0 : start <> 0).
  { intros ->. unfold prefix_at in P. discriminate P. }
  assert (N1 : firstn start tokens <> []).
  { intros E. apply (f_equal (@length _)) in E.
    rewrite length_firstn in E. simpl in E. lia. }
  assert (N2 : skipn start tokens <> []).
  { intros E. apply (f_equal (@length _)) in E.
    rewrite length_skipn in E. simpl in E. lia. }
  split.
  - pose proof (clean_tokens N1 (firstn_tokens start F)) as C.
    unfold prefix_at. destruct C as (N & H & L).
    rewrite (rstrip_clean _ L). exact (conj N (conj H L)).
  - exact (clean_tokens N2 (skipn_tokens start F)).
Qed.

Lemma split_item_clean text :
  clean_entry text -> Forall clean_entry (split_item text).
Proof.
  intros C. unfold split_item, split_items.
  pose proof (trailing_split_clean text) as H.
  destruct (trailing_split text) as [main [t|]].
  - destruct H as [Cm Ct].
    destruct (truthy t);
      [constructor; [exact Cm|constructor; [exact Ct|constructor]]
      |constructor; [exact Cm|constructor]].
  - subst main. constructor; [exact C|constructor].
Qed.

Lemma clean_snoc l e :
  Forall clean_entry l -> clean_entry e -> Forall clean_entry (l ++ [e]).
Proof. intros. apply Forall_app. split; [assumption|now constructor]. Qed.

Lemma clean_extend l a tail x :
  Forall clean_entry (l ++ [a]) ->
  (tail = [] \/ (tail = py " " ++ x /\ clean_entry x)) ->
  Forall clean_entry (l ++ [rstrip a ++ tail]).
Proof.
  intros F T. apply Forall_app in F as [Fl Fa].
  inversion Fa as [|? ? Ca _]; subst.
  apply clean_snoc; [exact Fl|].
  destruct T as [->|[-> Cx]].
  - rewrite app_nil_r. destruct Ca as (N & H & L).
    rewrite (rstrip_clean a L). now repeat split.
  - now apply clean_join.
Qed.

Lemma proj_line_clean merged text :
  Forall clean_entry merged -> clean_entry text ->
  exists m, proj_line merged text = Ok m /\ m <> [] /\ Forall clean_entry m.
Proof.
  intros F C. unfold proj_line.
  destruct merged as [|a l] using rev_ind.
  - simpl. eexists. split; [reflexivity|].
    split; [discriminate|constructor; [exact C|constructor]].
  - clear IHl.
    assert (T : truthy_list (l ++ [a]) = true)
      by (apply truthy_list_true; now destruct l).
    assert (NE : forall (x : list str) y, x ++ [y] <> [])
      by (intros x y; now destruct x).
    rewrite T, index_last_snoc. simpl.
    destruct (found _).
    { eexists. split; [reflexivity|]. split; [apply NE|now apply clean_snoc]. }
    destruct (_is_bullet a).
    + rewrite split_ok. simpl.
      pose proof (trailing_split_clean text) as H.
      destruct (trailing_split text) as [prefix [t|]].
      * destruct H as [Cp Ct].
        destruct (truthy t); rewrite extend_last_snoc; simpl;
          eexists; (split; [reflexivity|]).
        -- split; [apply NE|]. apply clean_snoc; [|exact Ct].
           apply clean_extend with (x := prefix); [exact F|].
           destruct (truthy prefix); [right; now split|now left].
        -- split; [apply NE|].
           apply clean_extend with (x := text); [exact F|]. right. now split.
      * rewrite extend_last_snoc. eexists. split; [reflexivity|].
        split; [apply NE|].
        apply clean_extend with (x := text); [exact F|]. right. now split.
    + rewrite title_ok. simpl.
      destruct (is_title text).
      * eexists. split; [reflexivity|].
        split; [apply NE|now apply clean_snoc].
      * rewrite extend_last_snoc. eexists. split; [reflexivity|].
        split; [apply NE|].
        apply clean_extend with (x := text); [exact F|]. right. now split.
Qed.

Lemma exp_line_clean merged text :
  merged <> [] -> Forall clean_entry merged -> clean_entry text ->
  exists m, exp_line merged text = Ok m /\ m <> [] /\ Forall clean_entry m.
Proof.
  intros H F C. destruct (nonempty_snoc H) as (l & a & ->).
  assert (NE : forall (x : list str) y, x ++ [y] <> [])
    by (intros x y; now destruct x).
  unfold exp_line.
  destruct (_looks_like_job_header text).
  - eexists. split; [reflexivity|]. split; [apply NE|now apply clean_snoc].
  - assert (T : truthy_list (l ++ [a]) = true)
      by (apply truthy_list_true; now destruct l).
    rewrite T, index_last_snoc. simpl. rewrite set_last_snoc.
    eexists. split; [reflexivity|]. split; [apply NE|].
    apply clean_extend with (x := text); [exact F|]. right. now split.
Qed.

Lemma merge_step_clean st raw :
  anchored st -> Forall clean_entry (fst st) ->
  exists st', merge_step st raw = Ok st'
              /\ anchored st' /\ Forall clean_entry (fst st').
Proof.
  intros I F. destruct st as [merged sec]. simpl in F. unfold merge_step.
  destruct (negb (truthy raw)); [eauto|].
  destruct (truthy (strip raw)) eqn:T; cbn [negb]; [|eauto].
  assert (C : clean_entry (strip raw)).
  { apply clean_strip. intros E. rewrite E in T. discriminate. }
  set (text := strip raw) in *.
  assert (A1 : forall s, anchored (merged ++ [text], s)
                         /\ Forall clean_entry (fst (merged ++ [text], s))).
  { intros s. split; [left; simpl; now destruct merged|].
    simpl. now apply clean_snoc. }
  destruct (found _); [eauto|].
  destruct (found _); [eauto|].
  destruct (found _); [eauto|].
  destruct (_is_bullet text).
  - destruct sec as [[|]|]; [eauto| |eauto].
    rewrite split_ok. simpl.
    pose proof (split_item_clean C) as S. unfold split_item in S.
    destruct (trailing_split text) as [main mt].
    eexists. split; [reflexivity|]. split.
    + left. simpl. unfold split_items.
      destruct mt as [t|]; [destruct (truthy t)|]; now destruct merged.
    + simpl. apply Forall_app. now split.
  - destruct sec as [[|]|]; [| |eauto].
    + destruct I as [I|I]; [|discriminate]. simpl in I.
      destruct (exp_line_clean I F C) as (m & -> & Hm & Fm). simpl.
      eexists. split; [reflexivity|]. split; [now left|exact Fm].
    + destruct (proj_line_clean F C) as (m & -> & Hm & Fm). simpl.
      eexists. split; [reflexivity|]. split; [now left|exact Fm].
Qed.

Lemma merge_from_clean lines : forall st,
  anchored st -> Forall clean_entry (fst st) ->
  exists st', for_each merge_step lines st = Ok st'
              /\ Forall clean_entry (fst st').
Proof.
  induction lines as [|raw lines IH]; intros st I F; [simpl; eauto|].
  cbn [for_each].
  destruct (merge_step_clean raw I F) as (st' & -> & I' & F').
  cbn [bind]. now apply IH.
Qed.

Lemma merge_pass_clean lines :
  exists merged sec,
    merge_pass lines = Ok (merged, sec) /\ Forall clean_entry merged.
Proof.
  destruct (@merge_from_clean lines ([], None)) as ([merged sec] & E & F);
    [now right|constructor|].
  exists merged, sec. now split.
Qed.

Lemma subseq_forall {A} (P : A -> Prop) l1 l2 :
  subseq l1 l2 -> Forall P l2 -> Forall P l1.
Proof.
  intros S F. rewrite Forall_forall in *. intros x I.
  apply F. eapply subseq_in; eassumption.
Qed.

Lemma split_all_clean proj :
  Forall clean_entry proj -> Forall clean_entry (concat (map split_item proj)).
Proof.
  induction 1 as [|item proj C _ IH]; [constructor|].
  cbn [map concat]. apply Forall_app. split; [now apply split_item_clean|exact IH].
Qed.

Lemma merge_titles_clean_items n : forall l,
  length l <= n -> Forall clean_entry l -> Forall clean_entry (merge_titles l).
Proof.
  induction n as [|n IH]; intros [|cur [|next rest]] H F;
    try (simpl in H; lia); try exact F.
  rewrite merge_titles_pair. simpl in H.
  inversion F as [|? ? Cc F1]; subst. inversion F1 as [|? ? Cn F2]; subst.
  destruct (mergeable cur next).
  - constructor; [|apply IH; [lia|exact F2]].
    pose proof (clean_join Cc Cn) as J.
    destruct Cc as (_ & _ & Lc). rewrite (rstrip_clean cur Lc) in J.
    now rewrite (clean_is_stripped J).
  - constructor; [exact Cc|]. apply IH; [simpl; lia|exact F1].
Qed.

(** X11.  An experience item is never empty and neither starts nor ends
    with white space, and so is every entry the merge pass builds. *)
Theorem experience_items_clean (lines : list str) :
  exists merged sec proj,
    merge_pass lines = Ok (merged, sec)
    /\ split_and_merge lines = Ok (fst (section_split merged), proj)
    /\ Forall clean_entry merged
    /\ Forall clean_entry (fst (section_split merged)).
Proof.
  destruct (merge_pass_clean lines) as (merged & sec & E & F).
  destruct (repair_ok (snd (section_split merged))) as [proj R].
  exists merged, sec, proj. repeat split; trivial.
  - unfold split_and_merge. rewrite E. cbn [bind].
    destruct (section_split merged) as [exp proj0]. simpl in R.
    now rewrite R.
  - eapply subseq_forall; [apply section_split_subseq|exact F].
Qed.

(** X12.  A project item is never empty and neither starts nor ends with
    white space up to post-pass 2: the projects list that post-pass 3 is
    given has only such items. *)
Theorem project_items_clean (lines : list str) :
  exists merged sec p2 proj,
    merge_pass lines = Ok (merged, sec)
    /\ (p1 <- post_pass1 (snd (section_split merged)) ;; post_pass2 p1) = Ok p2
    /\ post_pass3 p2 = Ok proj
    /\ split_and_merge lines = Ok (fst (section_split merged), proj)
    /\ Forall clean_entry p2.
Proof.
  destruct (merge_pass_clean lines) as (merged & sec & E & F).
  set (proj0 := snd (section_split merged)).
  set (p1 := concat (map split_item proj0)).
  destruct (post_pass3_ok (merge_titles p1)) as [proj R].
  exists merged, sec, (merge_titles p1), proj.
  assert (P12 : (q <- post_pass1 proj0 ;; post_pass2 q) = Ok (merge_titles p1)).
  { rewrite post_pass1_value. cbn [bind]. apply post_pass2_ok. }
  repeat split; trivial.
  - unfold split_and_merge. rewrite E. cbn [bind].
    unfold proj0 in *. destruct (section_split merged) as [exp pr].
    simpl in *. unfold repair. rewrite post_pass1_value. cbn [bind].
    rewrite post_pass2_ok. cbn [bind]. fold p1. now rewrite R.
  - apply (@merge_titles_clean_items (length p1)); [lia|].
    apply split_all_clean.
    eapply subseq_forall; [apply section_split_subseq|exact F].
Qed.

End Clean.

(** ** The line classifier in closed form *)

Section Classifier.
Context {U : UnicodeDB}.

Ltac invert_match :=
  repeat match goal with
  | H : matches (Seq _ _) _ _ _ _ |- _ => inversion H; subst; clear H
  | H : matches (Alt _ _) _ _ _ _ |- _ => inversion H; subst; clear H
  | H : matches (Cls _) _ _ _ _ |- _ => inversion H; subst; clear H
  | H : matches Bol _ _ _ _ |- _ => inversion H; subst; clear H
  | H : matches Eps _ _ _ _ |- _ => inversion H; subst; clear H
  end.

Lemma glyph_bullet_match s :
  found (re_match BULLET_RE s) = true <-> glyph_bullet s.
Proof.
  rewrite found_match. unfold BULLET_RE, Seqs, Plus, OneOf, Space.
  cbn [fold_right]. split.
  - intros (p' & s' & M). invert_match.
    match goal with
    | |- glyph_bullet (?a :: ?b :: ?r) => exists a, b, r; repeat split; assumption
    end.
  - intros (c & d & rest & -> & Hc & Hd).
    exists (Some d), rest.
    eapply m_seq; [constructor|].
    eapply m_seq; [now constructor|].
    eapply m_seq; [|constructor].
    eapply m_seq; [now constructor|constructor].
Qed.

Lemma numbered_bullet_match s :
  found (re_match NUM_BULLET_RE s) = true <-> numbered_bullet s.
Proof.
  rewrite found_match. unfold NUM_BULLET_RE, Seqs, Plus, Opt, OneOf, Chr,
    Space, Digit.
  cbn [fold_right]. split.
  - intros (p' & s' & M). invert_match;
      match goal with
      | D : matches (Star _ (Cls is_digit)) _ _ _ _ |- _ =>
          destruct (star_class_inv D) as (ds & -> & Hds)
      end;
      match goal with
      | H : N.eqb _ ?c = true
        |- numbered_bullet (?c :: ?d0 :: ?ds ++ ?pc :: ?w :: ?r) =>
          apply N.eqb_eq in H; subst; exists (py "("), (d0 :: ds), pc, w, r
      | |- numbered_bullet (?d0 :: ?ds ++ ?pc :: ?w :: ?r) =>
          exists [], (d0 :: ds), pc, w, r
      end;
      (split; [reflexivity|]); (split; [auto|]); (split; [discriminate|]);
      (split; [simpl; apply andb_true_iff; split; assumption|]);
      split; assumption.
  - intros (paren & digits & d & w & rest & -> & Hp & Hn & Hds & Hd & Hw).
    destruct digits as [|d0 ds]; [congruence|].
    simpl in Hds. apply andb_true_iff in Hds as [Hd0 Hds].
    destruct (star_class_run true is_digit ds (Some d0) (d :: w :: rest) Hds)
      as [q Mds].
    exists (Some w), rest.
    assert (Tail : forall p,
      matches (Seq (Seq (Cls is_digit) (Star true (Cls is_digit)))
                 (Seq (Cls (mem_char (py ".)]")))
                    (Seq (Seq (Cls isspace) (Star true (Cls isspace))) Eps)))
        p (d0 :: ds ++ d :: w :: rest) (Some w) rest).
    { intros p.
      eapply m_seq; [eapply m_seq; [now apply m_cls|exact Mds]|].
      eapply m_seq; [now apply m_cls|].
      eapply m_seq; [|constructor].
      eapply m_seq; [now apply m_cls|constructor]. }
    eapply m_seq; [constructor|].
    destruct Hp as [->| ->].
    + eapply m_seq; [apply m_alt_r; constructor|]. apply Tail.
    + eapply m_seq; [apply m_alt_l; apply m_cls; reflexivity|]. apply Tail.
Qed.

(** X13.  [_is_bullet] in closed form: a bullet glyph (U+2022, [-], U+2013,
    U+2014, [*]) followed by white space, or an optional [(], one or more
    digits, one of [.], [)], []] and white space.  A marker not followed by
    white space is no bullet. *)
Theorem is_bullet_closed_form (s : str) :
  _is_bullet s = true <-> glyph_bullet s \/ numbered_bullet s.
Proof.
  unfold _is_bullet. rewrite orb_true_iff.
  now rewrite glyph_bullet_match, numbered_bullet_match.
Qed.

End Classifier.

(** ** Job headers and section headers *)

Section Headers_more.
Context {U : UnicodeDB}.

Lemma search_from_eq r p s :
  search_from r p s
  = match match_here r p s with
    | Some m => Some m
    | None =>
        match s with
        | [] => None
        | c :: s' => search_from r (Some c) s'
        end
    end.
Proof. destruct s; reflexivity. Qed.

(** [search] finds a match that starts anywhere in the subject. *)
Lemma search_finds r pre : forall p0 s p' s',
  matches r (fold_left (fun _ c => Some c) pre p0) s p' s' ->
  found (search_from r p0 (pre ++ s)) = true.
Proof.
  induction pre as [|c pre IH]; intros p0 s p' s' M; rewrite search_from_eq.
  - simpl in M. unfold match_here.
    eapply exec_complete in M as [y ->]; [reflexivity|]. eauto.
  - destruct (match_here r p0 ((c :: pre) ++ s)); [reflexivity|].
    simpl. eapply IH. exact M.
Qed.

Lemma spaced_hyphen_job_header (a b : str) (w1 w2 : char) :
  isspace w1 = true -> isspace w2 = true ->
  _looks_like_job_header (a ++ w1 :: 45%N :: w2 :: b) = true.
Proof.
  intros H1 H2. unfold _looks_like_job_header.
  assert (R : found (re_search RANGE_RE (a ++ w1 :: 45%N :: w2 :: b)) = true).
  { unfold re_search.
    apply search_finds with (p' := Some w2) (s' := b).
    unfold RANGE_RE, Seqs, Space, Chr. cbn [fold_right].
    eapply m_seq; [now apply m_cls|].
    eapply m_seq; [apply m_cls; reflexivity|].
    eapply m_seq; [now apply m_cls|constructor]. }
  rewrite R.
  now destruct (found (re_search DATE_RE (a ++ w1 :: 45%N :: w2 :: b))).
Qed.

(** X14.  A hyphen between two white-space characters inside the stripped
    line makes it job-header-like, so that in the Experience section the
    merge pass always appends such a line, stripped, as a new entry and
    never joins it to the entry before; the section stays Experience
    unless the line matches a header pattern. *)
Theorem spaced_hyphen_starts_item (merged : list str) (raw a b : str)
  (w1 w2 : char) :
  isspace w1 = true -> isspace w2 = true ->
  strip raw = a ++ w1 :: 45%N :: w2 :: b ->
  _looks_like_job_header (strip raw) = true
  /\ exists sec',
       merge_step (merged, Some SecExp) raw = Ok (merged ++ [strip raw], sec')
       /\ (is_header (strip raw) = false -> sec' = Some SecExp).
Proof.
  intros H1 H2 E.
  assert (J : _looks_like_job_header (strip raw) = true).
  { rewrite E. now apply spaced_hyphen_job_header. }
  split; [exact J|].
  assert (NE : strip raw <> []).
  { rewrite E. now destruct a. }
  unfold merge_step.
  rewrite (strip_nonempty raw NE), (truthy_nonempty NE). cbn [negb].
  unfold is_header.
  destruct (found (re_match EXPERIENCE_HEADERS (strip raw)));
    [eexists; split; [reflexivity|discriminate]|].
  destruct (found (re_match PROJECTS_HEADERS (strip raw)));
    [eexists; split; [reflexivity|discriminate]|].
  destruct (found (re_match OTHER_HEADERS (strip raw)));
    [eexists; split; [reflexivity|discriminate]|].
  destruct (_is_bullet (strip raw));
    [eexists; split; reflexivity|].
  unfold exp_line. rewrite J. cbn [bind].
  eexists; split; reflexivity.
Qed.

(** X15.  Header patterns tolerate trailing text: a line that matches the
    Experience, the Projects or the Other header pattern and does not end
    in white space still matches it when a space and any text without line
    feed are appended. *)
Theorem header_tolerates_trailing_text (h text : str) :
  isspace (last h 0%N) = false ->
  no_line_feed text = true ->
  (found (re_match EXPERIENCE_HEADERS h) = true ->
   found (re_match EXPERIENCE_HEADERS (h ++ py " " ++ text)) = true)
  /\ (found (re_match PROJECTS_HEADERS h) = true ->
      found (re_match PROJECTS_HEADERS (h ++ py " " ++ text)) = true)
  /\ (found (re_match OTHER_HEADERS h) = true ->
      found (re_match OTHER_HEADERS (h ++ py " " ++ text)) = true).
Proof.
  intros L N. repeat split; intros H; apply header_extends; trivial.
Qed.

End Headers_more.

Section Headers_more_example.
#[local] Existing Instance ascii_only.

(** X14 at the line [Acme Corp - Boston], given with white space around
    it, after the entries [Experience] and [Engineer]. *)
Lemma spaced_hyphen_starts_item_witness :
  let raw := py "  Acme Corp - Boston " in
  let merged := [py "Experience"; py "Engineer"] in
  (isspace 32%N = true
   /\ strip raw = py "Acme Corp" ++ 32%N :: 45%N :: 32%N :: py "Boston")
  /\ _looks_like_job_header (strip raw) = true
  /\ exists sec',
       merge_step (merged, Some SecExp) raw = Ok (merged ++ [strip raw], sec')
       /\ (is_header (strip raw) = false -> sec' = Some SecExp).
Proof.
  assert (H : isspace 32%N = true) by reflexivity.
  assert (E : strip (py "  Acme Corp - Boston ")
              = py "Acme Corp" ++ 32%N :: 45%N :: 32%N :: py "Boston")
    by reflexivity.
  split; [now split|].
  exact (@spaced_hyphen_starts_item ascii_only
           [py "Experience"; py "Engineer"] (py "  Acme Corp - Boston ")
           (py "Acme Corp") (py "Boston") 32%N 32%N H H E).
Defined.

(** X15 at the header [Skills] and the text [and tools]. *)
Lemma header_tolerates_trailing_text_witness :
  (isspace (last (py "Skills") 0%N) = false
   /\ no_line_feed (py "and tools") = true)
  /\ (found (re_match EXPERIENCE_HEADERS (py "Skills")) = true ->
      found (re_match EXPERIENCE_HEADERS (py "Skills and tools")) = true)
  /\ (found (re_match PROJECTS_HEADERS (py "Skills")) = true ->
      found (re_match PROJECTS_HEADERS (py "Skills and tools")) = true)
  /\ (found (re_match OTHER_HEADERS (py "Skills")) = true ->
      found (re_match OTHER_HEADERS (py "Skills and tools")) = true).
Proof.
  assert (H1 : isspace (last (py "Skills") 0%N) = false) by reflexivity.
  assert (H2 : no_line_feed (py "and tools") = true) by reflexivity.
  split; [now split|].
  exact (@header_tolerates_trailing_text ascii_only (py "Skills")
           (py "and tools") H1 H2).
Defined.

End Headers_more_example.

(** * Properties of the line cleaning in [backend/app.py] *)

Section Cleaning_props.
Context {U : UnicodeDB}.
Variable nfkc : str -> str.

(** A greedy star over a class takes the whole run of the class. *)
Lemma star_greedy_run (f : char -> bool) {A} (g : str -> A) n : forall s p,
  length s <= n ->
  star_loop true (exec (Cls f)) (fun _ rest => Some (g rest)) n p s
  = Some (g (drop_while f s)).
Proof.
  induction n as [|n IH]; intros s p L.
  - destruct s; [reflexivity|simpl in L; lia].
  - cbn [star_loop]. destruct s as [|c s]; [reflexivity|].
    cbn [exec drop_while]. destruct (f c); [|reflexivity].
    assert (Lt : (length s <? length (c :: s)) = true)
      by (apply Nat.ltb_lt; simpl; lia).
    rewrite Lt, IH by (simpl in L; lia). reflexivity.
Qed.

(** The text [\s+] matches at a position: the whole run of white space. *)
Lemma spaces_here p c s :
  match_here App.SPACES_RE p (c :: s)
  = if isspace c
    then Some (c :: firstn (length s - length (drop_while isspace s)) s)
    else None.
Proof.
  unfold match_here, App.SPACES_RE, Plus, Space. cbn [exec].
  destruct (isspace c); [|reflexivity].
  transitivity
    (Some (firstn (length (c :: s) - length (drop_while isspace s)) (c :: s))).
  - apply (star_greedy_run isspace
             (fun rest => firstn (length (c :: s) - length rest) (c :: s))).
    lia.
  - cbn [length]. rewrite Nat.sub_succ_l by apply drop_while_length.
    reflexivity.
Qed.

(** After [re.sub(r"\s+", " ", s)] no white space is left but single
    spaces. *)
Lemma sub_spaces s :
  (forall p,
     single_spaced false (App.sub_from App.SPACES_RE (py " ") 0 p s) = true)
  /\ (forall p,
        single_spaced true
          (App.sub_from App.SPACES_RE (py " ")
             (length s - length (drop_while isspace s)) p s) = true).
Proof.
  induction s as [|c s [P Q]]; [split; reflexivity|].
  pose proof (drop_while_length isspace s) as D.
  split; intros p.
  - cbn [App.sub_from]. rewrite spaces_here.
    destruct (isspace c) eqn:E.
    + rewrite length_firstn, Nat.min_l by apply Nat.le_sub_l.
      change (py " " ++ ?x) with (32%N :: x).
      cbn [app]. change (py " ") with [32%N]. cbn [app single_spaced].
      change (isspace 32%N) with true. cbv iota.
      rewrite N.eqb_refl. apply Q.
    + cbn [single_spaced]. rewrite E. apply P.
  - cbn [drop_while]. destruct (isspace c) eqn:E.
    + cbn [length]. rewrite Nat.sub_succ_l by apply drop_while_length.
      cbn [App.sub_from]. apply Q.
    + rewrite Nat.sub_diag. cbn [App.sub_from]. rewrite spaces_here, E.
      cbn [single_spaced]. rewrite E. apply P.
Qed.

Lemma drop_while_suffix f s : exists d, s = d ++ drop_while f s.
Proof.
  induction s as [|c s [d IH]]; [now exists []|].
  simpl. destruct (f c); [|now exists []].
  exists (c :: d). simpl. now rewrite <- IH.
Qed.

Lemma single_spaced_prefix a : forall g b,
  single_spaced g (a ++ b) = true -> single_spaced g a = true.
Proof.
  induction a as [|c a IH]; intros g b H; [reflexivity|].
  simpl in *. destruct (isspace c); [|now apply IH with b].
  apply andb_true_iff in H as [H1 H2]. rewrite H1. now apply IH with b.
Qed.

Lemma single_spaced_lstrip s : forall g,
  single_spaced g s = true ->
  single_spaced false (drop_while isspace s) = true.
Proof.
  induction s as [|c s IH]; intros g H; [reflexivity|].
  simpl in *. destruct (isspace c) eqn:E.
  - apply andb_true_iff in H as [_ H]. now apply IH with true.
  - simpl. now rewrite E.
Qed.

Lemma single_spaced_strip s :
  single_spaced false s = true -> single_spaced false (strip s) = true.
Proof.
  intros H. unfold strip, lstrip_by. apply single_spaced_lstrip with false.
  unfold rstrip_by.
  destruct (drop_while_suffix isspace (rev s)) as [d E].
  apply single_spaced_prefix with (rev d).
  rewrite <- rev_app_distr, <- E, rev_involutive. exact H.
Qed.

Lemma single_spaced_no_line_feed s : forall g,
  single_spaced g s = true -> no_line_feed s = true.
Proof.
  induction s as [|c s IH]; intros g H; [reflexivity|].
  simpl in *. destruct (isspace c) eqn:E.
  - apply andb_true_iff in H as [H1 H2].
    apply andb_true_iff in H1 as [H1 _].
    apply N.eqb_eq in H1. subst c. simpl. now apply IH with true.
  - assert (C : N.eqb c 10%N = false).
    { destruct (N.eqb_spec c 10%N) as [->|]; [discriminate E|reflexivity]. }
    rewrite C. simpl. now apply IH with false.
Qed.

Lemma clean_line_facts (s : str) :
  (App.clean_line nfkc s = [] \/ clean_entry (App.clean_line nfkc s))
  /\ single_spaced false (App.clean_line nfkc s) = true
  /\ no_line_feed (App.clean_line nfkc s) = true.
Proof.
  assert (S : single_spaced false (App.clean_line nfkc s) = true).
  { unfold App.clean_line. destruct (negb (truthy s)); [reflexivity|].
    apply single_spaced_strip. unfold App.re_sub. apply sub_spaces. }
  repeat split; trivial.
  - unfold App.clean_line. destruct (negb (truthy s)); [now left|].
    destruct (strip _) eqn:E; [now left|right].
    rewrite <- E. apply clean_strip. rewrite E. discriminate.
  - now apply single_spaced_no_line_feed with false.
Qed.

(** X16.  A cleaned line is empty, or it neither starts nor ends with
    white space; all its white space is single U+0020 characters between
    other characters, so that it holds no tab and no line feed. *)
Theorem clean_line_normal_form (s : str) :
  (App.clean_line nfkc s = [] \/ clean_entry (App.clean_line nfkc s))
  /\ single_spaced false (App.clean_line nfkc s) = true
  /\ no_line_feed (App.clean_line nfkc s) = true.
Proof. exact (clean_line_facts s). Qed.

Lemma preprocess_from lines : forall out,
  fold_left (App.preprocess_step nfkc) lines out
  = out ++ filter (fun l => truthy l && negb (App.is_noise l))
             (map (App.clean_line nfkc) lines).
Proof.
  induction lines as [|ln lines IH]; intros out.
  - simpl. now rewrite app_nil_r.
  - cbn [fold_left map filter]. rewrite IH. unfold App.preprocess_step.
    destruct (truthy (App.clean_line nfkc ln)); cbn [negb andb]; [|reflexivity].
    destruct (App.is_noise (App.clean_line nfkc ln)); cbn [negb];
      [reflexivity|].
    now rewrite <- app_assoc.
Qed.

Lemma subseq_filter {A} (f : A -> bool) l : subseq (filter f l) l.
Proof.
  induction l as [|x l IH]; [constructor|].
  simpl. destruct (f x); now constructor.
Qed.

Lemma noise_facts l :
  App.is_noise l = false ->
  ~ In (lower l) App.STOP_HEADINGS
  /\ (forall tok, In tok App.STOP_SUBSTRINGS -> App.contains (lower l) tok = false)
  /\ 2 < length (lower l).
Proof.
  unfold App.is_noise. intros H.
  destruct (existsb (str_eqb (lower l)) App.STOP_HEADINGS) eqn:E1;
    [discriminate|].
  destruct (existsb (App.contains (lower l)) App.STOP_SUBSTRINGS) eqn:E2;
    [discriminate|].
  destruct (Nat.leb_spec (length (lower l)) 2); [discriminate|].
  repeat split; trivial.
  - intros I. assert (T : existsb (str_eqb (lower l)) App.STOP_HEADINGS = true).
    { apply existsb_exists. exists (lower l). split; [exact I|].
      clear. induction (lower l) as [|c r IH]; [reflexivity|].
      simpl. now rewrite N.eqb_refl. }
    congruence.
  - intros tok I. destruct (App.contains (lower l) tok) eqn:C; [|reflexivity].
    assert (T : existsb (App.contains (lower l)) App.STOP_SUBSTRINGS = true).
    { apply existsb_exists. eauto. }
    congruence.
Qed.

Lemma preprocess_lines_value (lines : list str) :
  App.preprocess_lines nfkc lines
  = filter (fun l => truthy l && negb (App.is_noise l))
      (map (App.clean_line nfkc) lines).
Proof. unfold App.preprocess_lines. now rewrite preprocess_from. Qed.

Lemma preprocess_lines_facts (lines : list str) :
  Forall (fun l => clean_entry l /\ App.is_noise l = false
                   /\ single_spaced false l = true
                   /\ no_line_feed l = true)
    (App.preprocess_lines nfkc lines).
Proof.
  rewrite preprocess_lines_value. apply Forall_forall. intros l I.
  apply filter_In in I as [I K].
  apply andb_true_iff in K as [T K]. apply negb_true_iff in K.
  apply in_map_iff in I as (raw & <- & _).
  destruct (clean_line_facts raw) as ([Z|C] & S & N).
  - rewrite Z in T. discriminate.
  - exact (conj C (conj K (conj S N))).
Qed.

(** X17.  [preprocess_lines] returns, in the order of the input, the
    cleaned lines that are not empty and not noise.  Each is in the normal
    form of a cleaned line and has more than two characters in lower case,
    is no stop heading and holds no stop substring; and the engine's own
    stripping and skipping of blank lines changes nothing on them. *)
Theorem preprocess_lines_output (lines : list str) :
  let out := App.preprocess_lines nfkc lines in
  subseq out (map (App.clean_line nfkc) lines)
  /\ Forall (fun l =>
       clean_entry l
       /\ single_spaced false l = true
       /\ no_line_feed l = true
       /\ ~ In (lower l) App.STOP_HEADINGS
       /\ (forall tok, In tok App.STOP_SUBSTRINGS ->
             App.contains (lower l) tok = false)
       /\ 2 < length (lower l)) out
  /\ filter truthy (map strip out) = out.
Proof.
  intros out. pose proof (preprocess_lines_facts lines) as F. fold out in F.
  split; [unfold out; rewrite preprocess_lines_value; apply subseq_filter|].
  split.
  - eapply Forall_impl; [|exact F].
    intros l (C & K & S & N). destruct (noise_facts l K) as (A1 & A2 & A3).
    exact (conj C (conj S (conj N (conj A1 (conj A2 A3))))).
  - induction F as [|l out' (C & _) _ IH]; [reflexivity|].
    cbn [map filter]. rewrite (clean_is_stripped C).
    destruct C as (NE & _). rewrite (truthy_nonempty NE). now rewrite IH.
Qed.

End Cleaning_props.

(** * Bullets in the merge pass *)

Section Bullet_entry.
Context {U : UnicodeDB}.


End Bullet_entry.

Section Bullet_entry_example.
#[local] Existing Instance ascii_only.


End Bullet_entry_example.

(** * The fragment post-pass 3 moves *)

Section Rescue.
Context {U : UnicodeDB}.

(** What [match_here] returns is what the pattern matched. *)
Lemma match_here_sound r p s m :
  match_here r p s = Some m ->
  exists p' s', matches r p s p' s' /\ s = m ++ s'.
Proof.
  unfold match_here. intros H.
  apply exec_sound in H as (p' & s' & M & E).
  exists p', s'. split; [exact M|].
  destruct (matches_suffix M) as [d ->].
  injection E as <-. rewrite length_app, Nat.add_sub.
  now rewrite firstn_app, Nat.sub_diag, firstn_all, firstn_O, app_nil_r.
Qed.

Lemma search_sound r s : forall p0 m,
  search_from r p0 s = Some m ->
  exists pre p rest p' s',
    s = pre ++ rest /\ matches r p rest p' s' /\ rest = m ++ s'.
Proof.
  induction s as [|c s IH]; intros p0 m H; rewrite search_from_eq in H.
  - destruct (match_here r p0 []) as [x|] eqn:E; [|discriminate].
    injection H as ->. apply match_here_sound in E as (p' & s' & M & Es).
    exists [], p0, [], p', s'. now repeat split.
  - destruct (match_here r p0 (c :: s)) as [x|] eqn:E.
    + injection H as ->. apply match_here_sound in E as (p' & s' & M & Es).
      exists [], p0, (c :: s), p', s'. now repeat split.
    + apply IH in H as (pre & p & rest & p' & s' & -> & M & Es).
      exists (c :: pre), p, rest, p', s'. now repeat split.
Qed.

Lemma rstrip_last x : isspace (last (rstrip x) 0%N) = false.
Proof.
  unfold rstrip, rstrip_by. rewrite last_rev.
  destruct (drop_while isspace (rev x)) as [|d q] eqn:F; [reflexivity|].
  simpl. eapply drop_while_head; eassumption.
Qed.

(** A match of the fragment pattern starts with a capital and reaches the
    end of the subject, a final line feed apart. *)
Lemma frag_match p s p' s' :
  matches FRAG_RE p s p' s' ->
  at_end s' = true /\ exists c rest, s = c :: rest /\ ascii_upper c = true.
Proof.
  unfold FRAG_RE, FRAG_WORD, Seqs, Upper, Range. cbn [fold_right].
  intros M.
  inversion M as [| |? ? ? ? p1 s1 ? ? Mw Mrest| | | | | | |]; subst; clear M.
  assert (Hend : at_end s' = true).
  { inversion Mrest as [| |? ? ? ? p2 s2 ? ? _ Me| | | | | | |]; subst.
    inversion Me as [| |? ? ? ? p3 s3 ? ? Meol Meps| | | | | | |]; subst.
    inversion Meps; subst. inversion Meol; subst. assumption. }
  split; [exact Hend|].
  inversion Mw as [| | |? ? ? ? ? ? Ml|? ? ? ? ? ? Mr| | | | |]; subst; clear Mw.
  - inversion Ml as [| |? ? ? ? ? ? ? ? Mc _| | | | | | |]; subst.
    inversion Mc; subst. eauto.
  - inversion Mr as [| |? ? ? ? ? ? ? ? Mc _| | | | | | |]; subst.
    inversion Mc; subst. eauto.
Qed.

(** X19.  The fragment post-pass 3 takes from a bullet is the end of the
    bullet, trailing white space apart, and starts with an ASCII capital
    letter. *)
Theorem rescued_fragment (item trimmed frag : str) :
  rescue item = Some (trimmed, frag) ->
  exists pre c rest,
    rstrip item = pre ++ frag
    /\ frag = c :: rest
    /\ ascii_upper c = true.
Proof.
  unfold rescue.
  destruct (re_search FRAG_RE (rstrip item)) as [m|] eqn:E; [|discriminate].
  destruct (truthy m && negb (endswith_any (strip item) SENTENCE_END));
    [|discriminate].
  intros [= _ <-].
  apply search_sound in E as (pre & p & mid & p' & s' & Es & M & Em).
  destruct (frag_match M) as (Hend & c & rest & Ec & Hc).
  assert (Z : s' = []).
  { destruct (at_end_cases _ Hend) as [|Z]; [assumption|exfalso].
    pose proof (rstrip_last item) as L.
    rewrite Es, Em, Z, !app_assoc, last_last in L. discriminate L. }
  subst s'. rewrite app_nil_r in Em. subst mid.
  exists pre, c, rest. now repeat split.
Qed.

End Rescue.

Section Rescue_example.
#[local] Existing Instance ascii_only.

(** X19 at the bullet [- did something with KAFKA]. *)
Lemma rescued_fragment_witness :
  rescue (py "- did something with KAFKA")
    = Some (py "- did something with", py "KAFKA")
  /\ exists pre c rest,
       rstrip (py "- did something with KAFKA") = pre ++ py "KAFKA"
       /\ py "KAFKA" = c :: rest
       /\ ascii_upper c = true.
Proof.
  assert (H : rescue (py "- did something with KAFKA")
              = Some (py "- did something with", py "KAFKA"))
    by (vm_compute; reflexivity).
  split; [exact H|].
  exact (@rescued_fragment ascii_only _ _ _ H).
Defined.

End Rescue_example.

(** * The engine invents no character *)

Section Characters.
Context {U : UnicodeDB}.

(** The characters allowed in an entry: the space, with which entries are
    joined, and whatever else [ok] admits. *)
Variable ok : char -> Prop.
Hypothesis ok_space : ok 32%N.

Lemma truthy_list_snoc {A} (l : list A) x : truthy_list (l ++ [x]) = true.
Proof. now destruct l. Qed.

Lemma drop_while_in f s c : In c (drop_while f s) -> In c s.
Proof.
  induction s as [|d s IH]; simpl; [trivial|].
  destruct (f d); [right; now apply IH|trivial].
Qed.

Lemma rstrip_by_in f s c : In c (rstrip_by f s) -> In c s.
Proof.
  unfold rstrip_by. intros H. apply in_rev in H.
  apply drop_while_in in H. now apply in_rev.
Qed.

Lemma ok_sub (a b : str) :
  (forall c, In c a -> In c b) -> Forall ok b -> Forall ok a.
Proof.
  intros S F. rewrite Forall_forall in *. auto.
Qed.

Lemma ok_rstrip s : Forall ok s -> Forall ok (rstrip s).
Proof. apply ok_sub. intros c. apply rstrip_by_in. Qed.

Lemma ok_strip s : Forall ok s -> Forall ok (strip s).
Proof.
  apply ok_sub. intros c H. unfold strip, lstrip_by in H.
  apply drop_while_in in H. now apply rstrip_by_in in H.
Qed.

Lemma split_piece_in s : forall g w c,
  In w (re_split_ws_from g s) -> In c w -> In c s.
Proof.
  induction s as [|d s IH]; intros g w c Hw Hc.
  - simpl in Hw. destruct Hw as [<-|[]]. contradiction.
  - rewrite split_cons in Hw. destruct (isspace d).
    + right. destruct g.
      * eapply IH; eassumption.
      * destruct Hw as [<-|Hw]; [contradiction|]. eapply IH; eassumption.
    + pose proof (IH false) as IH'.
      destruct (re_split_ws_from false s) as [|w0 ws].
      * destruct Hw as [<-|[]]. destruct Hc as [->|[]]. now left.
      * destruct Hw as [<-|Hw].
        -- destruct Hc as [->|Hc]; [now left|right].
           apply (IH' w0 c); [now left|exact Hc].
        -- right. apply (IH' w c); [now right|exact Hc].
Qed.

Lemma ok_tokens s : Forall ok s -> Forall (Forall ok) (re_split_ws s).
Proof.
  intros F. apply Forall_forall. intros w Hw.
  apply ok_sub with s; [|exact F].
  intros c Hc. eapply split_piece_in; eassumption.
Qed.

Lemma ok_join (l : list str) :
  Forall (Forall ok) l -> Forall ok (join (py " ") l).
Proof.
  induction 1 as [|x l Hx _ IH]; [constructor|].
  destruct l as [|y l]; [exact Hx|].
  rewrite join_pair. apply Forall_app. split; [exact Hx|].
  apply Forall_app. split; [|exact IH]. now repeat constructor.
Qed.

Lemma ok_firstn {A} (P : A -> Prop) n l : Forall P l -> Forall P (firstn n l).
Proof.
  intros F. rewrite <- (firstn_skipn n l) in F. now apply Forall_app in F.
Qed.

Lemma ok_skipn {A} (P : A -> Prop) n l : Forall P l -> Forall P (skipn n l).
Proof.
  intros F. rewrite <- (firstn_skipn n l) in F. now apply Forall_app in F.
Qed.

Lemma ok_removelast {A} (P : A -> Prop) l : Forall P l -> Forall P (removelast l).
Proof.
  induction 1 as [|x l Hx F IH]; [constructor|].
  simpl. destruct l; [constructor|]. constructor; assumption.
Qed.

Lemma ok_trailing_split (text : str) :
  Forall ok text ->
  Forall ok (fst (trailing_split text))
  /\ forall t, snd (trailing_split text) = Some t -> Forall ok t.
Proof.
  intros F. unfold trailing_split, first_split.
  pose proof (ok_tokens (ok_strip F)) as T.
  destruct (find _ _) as [start|]; simpl.
  - split.
    + unfold prefix_at. apply ok_rstrip, ok_join. now apply ok_firstn.
    + intros t [= <-]. unfold candidate_at. apply ok_join. now apply ok_skipn.
  - split; [exact F|discriminate].
Qed.

Lemma ok_split_item (text : str) :
  Forall ok text -> Forall (Forall ok) (split_item text).
Proof.
  intros F. destruct (ok_trailing_split F) as [Hm Ht].
  unfold split_item, split_items.
  destruct (trailing_split text) as [main [t|]]; simpl in *.
  - specialize (Ht t eq_refl).
    destruct (truthy t); repeat constructor; assumption.
  - repeat constructor; assumption.
Qed.

Lemma ok_snoc (l : list str) e :
  Forall (Forall ok) l -> Forall ok e -> Forall (Forall ok) (l ++ [e]).
Proof. intros. apply Forall_app. split; [assumption|now constructor]. Qed.

Lemma ok_extend l a tail :
  Forall (Forall ok) (l ++ [a]) -> Forall ok tail ->
  Forall (Forall ok) (l ++ [rstrip a ++ tail]).
Proof.
  intros F T. apply Forall_app in F as [Fl Fa].
  inversion Fa as [|? ? Ha _]; subst.
  apply ok_snoc; [exact Fl|]. apply Forall_app. split; [now apply ok_rstrip|exact T].
Qed.

Lemma ok_spaced x : Forall ok x -> Forall ok (py " " ++ x).
Proof. intros F. apply Forall_app. split; [now repeat constructor|exact F]. Qed.

Lemma ok_proj_line (merged : list str) (text : str) (m : list str) :
  Forall (Forall ok) merged -> Forall ok text ->
  proj_line merged text = Ok m -> Forall (Forall ok) m.
Proof.
  intros F T. unfold proj_line.
  destruct merged as [|a l] using rev_ind.
  - simpl. intros [= <-]. now repeat constructor.
  - clear IHl.
    rewrite truthy_list_snoc, index_last_snoc. simpl.
    destruct (found _); [intros [= <-]; now apply ok_snoc|].
    destruct (_is_bullet a).
    + rewrite split_ok. simpl.
      destruct (ok_trailing_split T) as [Hm Ht].
      destruct (trailing_split text) as [prefix [t|]]; simpl in *.
      * specialize (Ht t eq_refl).
        destruct (truthy t); rewrite extend_last_snoc; simpl; intros [= <-].
        -- apply ok_snoc; [|exact Ht]. apply ok_extend; [exact F|].
           destruct (truthy prefix); [now apply ok_spaced|constructor].
        -- apply ok_extend; [exact F|now apply ok_spaced].
      * rewrite extend_last_snoc. intros [= <-].
        apply ok_extend; [exact F|now apply ok_spaced].
    + rewrite title_ok. simpl. destruct (is_title text).
      * intros [= <-]. now apply ok_snoc.
      * rewrite extend_last_snoc. intros [= <-].
        apply ok_extend; [exact F|now apply ok_spaced].
Qed.

Lemma ok_exp_line (merged : list str) (text : str) (m : list str) :
  Forall (Forall ok) merged -> Forall ok text ->
  exp_line merged text = Ok m -> Forall (Forall ok) m.
Proof.
  intros F T. unfold exp_line.
  destruct (_looks_like_job_header text); [intros [= <-]; now apply ok_snoc|].
  destruct merged as [|a l] using rev_ind; [simpl; discriminate|].
  clear IHl.
  rewrite truthy_list_snoc, index_last_snoc. simpl. rewrite set_last_snoc.
  intros [= <-]. apply ok_extend; [exact F|now apply ok_spaced].
Qed.

Lemma ok_merge_step (st : scan_state) (raw : str) (st' : scan_state) :
  Forall (Forall ok) (fst st) -> Forall ok raw ->
  merge_step st raw = Ok st' -> Forall (Forall ok) (fst st').
Proof.
  destruct st as [merged sec]. simpl. intros F R. unfold merge_step.
  destruct (negb (truthy raw)); [now intros [= <-]|].
  destruct (negb (truthy (strip raw))); [now intros [= <-]|].
  pose proof (ok_strip R) as T.
  destruct (found _); [intros [= <-]; now apply ok_snoc|].
  destruct (found _); [intros [= <-]; now apply ok_snoc|].
  destruct (found _); [intros [= <-]; now apply ok_snoc|].
  destruct (_is_bullet (strip raw)).
  - destruct sec as [[|]|]; try (intros [= <-]; now apply ok_snoc).
    rewrite split_ok. simpl.
    pose proof (ok_split_item T) as S. unfold split_item in S.
    destruct (trailing_split (strip raw)) as [main mt].
    intros [= <-]. simpl. apply Forall_app. now split.
  - destruct sec as [[|]|]; [| |intros [= <-]; now apply ok_snoc].
    + destruct (exp_line merged (strip raw)) as [m|] eqn:E; [|discriminate].
      simpl. intros [= <-]. simpl. eapply ok_exp_line; eassumption.
    + destruct (proj_line merged (strip raw)) as [m|] eqn:E; [|discriminate].
      simpl. intros [= <-]. simpl. eapply ok_proj_line; eassumption.
Qed.

Lemma ok_merge_from (lines : list str) : forall st st' : scan_state,
  Forall (Forall ok) lines -> Forall (Forall ok) (fst st) ->
  for_each merge_step lines st = Ok st' -> Forall (Forall ok) (fst st').
Proof.
  induction lines as [|raw lines IH]; intros st st' L F.
  - simpl. now intros [= <-].
  - inversion L as [|? ? Hr Hl]; subst. cbn [for_each].
    destruct (merge_step st raw) as [st1|] eqn:E; [|discriminate].
    cbn [bind]. apply IH; [exact Hl|].
    eapply ok_merge_step; eassumption.
Qed.

Lemma ok_merge_titles n : forall l : list str,
  length l <= n -> Forall (Forall ok) l -> Forall (Forall ok) (merge_titles l).
Proof.
  induction n as [|n IH]; intros [|cur [|next rest]] H F;
    try (simpl in H; lia); try exact F.
  rewrite merge_titles_pair. simpl in H.
  inversion F as [|? ? Hc F1]; subst. inversion F1 as [|? ? Hn F2]; subst.
  destruct (mergeable cur next).
  - constructor; [|apply IH; [lia|exact F2]].
    apply ok_strip. apply Forall_app. split; [exact Hc|now apply ok_spaced].
  - constructor; [exact Hc|]. apply IH; [simpl; lia|exact F1].
Qed.

Lemma ok_rescue (item trimmed frag : str) :
  Forall ok item -> rescue item = Some (trimmed, frag) ->
  Forall ok trimmed /\ Forall ok frag.
Proof.
  intros F. unfold rescue. cbv zeta.
  destruct (re_search FRAG_RE (rstrip item)) as [m|] eqn:E; [|discriminate].
  destruct (truthy m && negb (endswith_any (strip item) SENTENCE_END));
    [|discriminate].
  intros [= <- <-].
  assert (S : Forall ok (slice_to item (rfind item m))).
  { unfold slice_to. destruct (rfind item m);
      [now apply ok_firstn|now apply ok_removelast]. }
  split.
  - match goal with
    | |- Forall ok (if ?b then _ else _) => destruct b
    end.
    + now apply ok_rstrip, ok_removelast, ok_rstrip.
    + now apply ok_rstrip.
  - apply search_sound in E as (pre & p & mid & p' & s' & Es & _ & Em).
    pose proof (ok_rstrip F) as R. rewrite Es, Em in R.
    apply Forall_app in R as [_ R]. now apply Forall_app in R as [R _].
Qed.

Lemma ok_set_index (l : list str) i v l' :
  Forall (Forall ok) l -> Forall ok v -> set_index l i v = Ok l' ->
  Forall (Forall ok) l'.
Proof.
  revert i l'. induction l as [|x l IH]; intros i l' F V; [discriminate|].
  inversion F as [|? ? Hx Hl]; subst. simpl. destruct i as [|i].
  - intros [= <-]. now constructor.
  - destruct (set_index l i v) as [r|] eqn:E; [|discriminate].
    simpl. intros [= <-]. constructor; [exact Hx|]. eapply IH; eassumption.
Qed.

Lemma ok_index (l : list str) i x :
  Forall (Forall ok) l -> index l i = Ok x -> Forall ok x.
Proof.
  intros F. unfold index. destruct (nth_error l i) as [y|] eqn:E; [|discriminate].
  intros [= <-]. rewrite Forall_forall in F. apply F.
  eapply nth_error_In; eassumption.
Qed.

Lemma ok_post_pass3_loop fuel : forall (proj : list str) i (acc r : list str),
  Forall (Forall ok) proj -> Forall (Forall ok) acc ->
  post_pass3_loop fuel proj i acc = Ok r -> Forall (Forall ok) r.
Proof.
  induction fuel as [|fuel IH]; intros proj i acc r Fp Fa;
    cbn [post_pass3_loop];
    (match goal with
     | |- (if ?b then _ else _) = _ -> _ =>
         destruct b; [intros H; inversion H; subst; exact Fa|]
     end);
    [discriminate|].
  destruct (index proj i) as [item|] eqn:Ei; [|discriminate]. cbn [bind].
  pose proof (ok_index _ Fp Ei) as Hitem.
  destruct (and_then _ _) as [cond|]; [|discriminate]. cbn [bind].
  destruct (if cond then rescue item else None) as [[trimmed frag]|] eqn:Er.
  - destruct cond; [|discriminate].
    destruct (ok_rescue Hitem Er) as [Ht Hf].
    destruct (index proj (i + 1)) as [next|] eqn:En; [|discriminate].
    cbn [bind]. pose proof (ok_index _ Fp En) as Hnext.
    destruct (set_index proj (i + 1) _) as [proj'|] eqn:Es; [|discriminate].
    cbn [bind]. apply IH.
    + eapply ok_set_index; [exact Fp| |exact Es].
      apply ok_strip. apply Forall_app. split; [exact Hf|now apply ok_spaced].
    + now apply ok_snoc.
  - apply IH; [exact Fp|now apply ok_snoc].
Qed.

Lemma ok_repair (proj r : list str) :
  Forall (Forall ok) proj -> repair proj = Ok r -> Forall (Forall ok) r.
Proof.
  intros F. unfold repair. rewrite post_pass1_value. cbn [bind].
  rewrite post_pass2_ok. cbn [bind]. unfold post_pass3.
  apply ok_post_pass3_loop; [|constructor].
  apply (@ok_merge_titles (length (concat (map split_item proj)))); [lia|].
  induction F as [|item proj Hi _ IH]; [constructor|].
  cbn [map concat]. apply Forall_app. split; [now apply ok_split_item|exact IH].
Qed.

Lemma ok_split_and_merge (lines : list str) :
  Forall (Forall ok) lines ->
  exists exp proj,
    split_and_merge lines = Ok (exp, proj)
    /\ Forall (Forall ok) exp /\ Forall (Forall ok) proj.
Proof.
  intros L. unfold split_and_merge.
  destruct (merge_pass_ok lines) as [[merged sec] Em]. rewrite Em.
  cbn [bind].
  assert (Fm : Forall (Forall ok) merged).
  { apply (@ok_merge_from lines ([], None) (merged, sec)); trivial;
      constructor. }
  pose proof (section_split_subseq merged) as (S1 & S2 & _).
  destruct (section_split merged) as [exp0 proj0]. simpl in S1, S2.
  destruct (repair_ok proj0) as [r Er]. rewrite Er. cbn [bind].
  exists exp0, r. split; [reflexivity|]. split.
  - eapply subseq_forall; eassumption.
  - eapply ok_repair; [|exact Er]. eapply subseq_forall; eassumption.
Qed.

End Characters.

Section Characters_engine.
Context {U : UnicodeDB}.

(** X20.  The engine invents no character: every character of every item
    it returns, in either list and after all repair passes, is a space or
    occurs in one of the input lines. *)
Theorem no_character_invented (lines : list str) :
  exists exp proj,
    split_and_merge lines = Ok (exp, proj)
    /\ forall item, In item (exp ++ proj) ->
         forall c, In c item -> chars_from lines c.
Proof.
  destruct (@ok_split_and_merge U (chars_from lines) (or_introl eq_refl) lines)
    as (exp & proj & E & Fe & Fp).
  { apply Forall_forall. intros raw I. apply Forall_forall. intros c Hc.
    right. eauto. }
  exists exp, proj. split; [exact E|].
  intros item I c Hc. rewrite Forall_forall in Fe, Fp.
  apply in_app_or in I as [I|I];
    [specialize (Fe item I) as F|specialize (Fp item I) as F];
    rewrite Forall_forall in F; auto.
Qed.

Variable nfkc : str -> str.

Lemma single_spaced_chars s : forall g,
  single_spaced g s = true ->
  Forall (fun c => isspace c = true -> c = 32%N) s.
Proof.
  induction s as [|c s IH]; intros g H; [constructor|].
  simpl in H. destruct (isspace c) eqn:E.
  - apply andb_true_iff in H as [H1 H2].
    apply andb_true_iff in H1 as [H1 _]. apply N.eqb_eq in H1.
    constructor; [auto|now apply IH with true].
  - constructor; [congruence|now apply IH with false].
Qed.

(** X21.  What [parse_resume] computes from the extracted lines: cleaning
    and the engine never raise, and in every item of either list the only
    white space is the space U+0020; no item holds a tab or a line feed,
    whatever the extracted text was. *)
Theorem parsed_items_single_line (raw_lines : list str) :
  exists exp proj,
    App.parse_lines nfkc raw_lines = Ok (exp, proj)
    /\ forall item, In item (exp ++ proj) ->
         (forall c, In c item -> isspace c = true -> c = 32%N)
         /\ no_line_feed item = true.
Proof.
  unfold App.parse_lines.
  destruct (@ok_split_and_merge U (fun c => isspace c = true -> c = 32%N)
              (fun _ => eq_refl) (App.preprocess_lines nfkc raw_lines))
    as (exp & proj & E & Fe & Fp).
  { eapply Forall_impl; [|exact (preprocess_lines_facts nfkc raw_lines)].
    intros l (_ & _ & S & _). now apply single_spaced_chars with false. }
  exists exp, proj. split; [exact E|].
  intros item I.
  assert (F : Forall (fun c => isspace c = true -> c = 32%N) item).
  { rewrite Forall_forall in Fe, Fp.
    apply in_app_or in I as [I|I]; auto. }
  split; [now rewrite Forall_forall in F|].
  unfold no_line_feed. apply forallb_forall. intros c Hc.
  rewrite Forall_forall in F. specialize (F c Hc).
  destruct (N.eqb_spec c 10%N) as [->|]; [|reflexivity].
  specialize (F eq_refl). discriminate F.
Qed.

End Characters_engine.
